(** * JGV level-assignment engine (src/JGV/Level.py)

    A shallow embedding of the [Level] class: the object's attributes are
    a record, the two containers are finite maps, the method [__call__]
    is a function from the object before the call to the object after
    it together with the returned value.  Python exceptions are kept
    explicit in the [result] type, so that "never raises" is a theorem
    and not a side effect of the encoding. *)

From Stdlib Require Import ZArith Lia Bool Ascii String.
From stdpp Require Import gmap strings list fin_maps.
From Equations Require Import Equations.

Local Open Scope string_scope.
Local Open Scope Z_scope.

(** ** Exceptions and results *)

(** The only operation of [__call__] that can raise is the subscript
    [self.level_dict[level]] on a plain [dict]. *)
Inductive exn : Type :=
| KeyError (key : Z).

Inductive result (A : Type) : Type :=
| Ok (a : A)
| Raise (e : exn).
Arguments Ok {A} a.
Arguments Raise {A} e.

Definition rbind {A B : Type} (r : result A) (k : A → result B) : result B :=
  match r with
  | Ok a => k a
  | Raise e => Raise e
  end.

Notation "x ←? r ;; k" := (rbind r (λ x, k))
  (at level 100, r at next level, right associativity, only parsing).

(** ** Data model *)

(** [namedtuple('enhanced_feature', ['ID','start','end',"arrowstyle","level"])];
    [end] is a keyword here, hence [end_]. *)
Record enhanced_feature : Type := mk_enhanced_feature {
  ID : string;
  start : Z;
  end_ : Z;
  arrowstyle : string;
  level : Z
}.

(** The attributes [__init__] creates on [self].  Python integers are
    unbounded, hence [Z]; [level_dict] is a [dict] keyed by signed level
    indices; [count] is a [collections.Counter] keyed by strings. *)
Record Level : Type := mk_Level {
  max_depth : Z;
  offset : Z;
  pos_arrowstyle : string;
  neg_arrowstyle : string;
  unstrand_arrowstyle : string;
  filter_pos : bool;
  filter_neg : bool;
  filter_unstrand : bool;
  level_dict : gmap Z Z;
  count : gmap string Z
}.

(** [Level.__init__] *)
Definition Level_init (max_depth offset : Z)
    (filter_pos filter_neg filter_unstrand : bool) : Level :=
  {| max_depth := max_depth;
     offset := offset;
     pos_arrowstyle := "-|>,head_width=1,head_length=2";
     neg_arrowstyle := "<|-,head_width=1,head_length=2";
     unstrand_arrowstyle := "-";
     filter_pos := filter_pos;
     filter_neg := filter_neg;
     filter_unstrand := filter_unstrand;
     level_dict := ∅;
     count := ∅ |}.

(** [Level()] with every keyword argument at its default. *)
Definition Level_default : Level := Level_init 10 10 false false true.

(** ** Container operations *)

(** [c[k]] on a [Counter]: a missing key reads as [0] and is not inserted. *)
Definition counter_get (c : gmap string Z) (k : string) : Z :=
  default 0 (c !! k).

(** [self.count[k] += 1] *)
Definition incr_count (self : Level) (k : string) : Level :=
  {| max_depth := max_depth self;
     offset := offset self;
     pos_arrowstyle := pos_arrowstyle self;
     neg_arrowstyle := neg_arrowstyle self;
     unstrand_arrowstyle := unstrand_arrowstyle self;
     filter_pos := filter_pos self;
     filter_neg := filter_neg self;
     filter_unstrand := filter_unstrand self;
     level_dict := level_dict self;
     count := <[k := counter_get (count self) k + 1]> (count self) |}.

(** [self.level_dict[lvl] = e] *)
Definition set_level (self : Level) (lvl e : Z) : Level :=
  {| max_depth := max_depth self;
     offset := offset self;
     pos_arrowstyle := pos_arrowstyle self;
     neg_arrowstyle := neg_arrowstyle self;
     unstrand_arrowstyle := unstrand_arrowstyle self;
     filter_pos := filter_pos self;
     filter_neg := filter_neg self;
     filter_unstrand := filter_unstrand self;
     level_dict := <[lvl := e]> (level_dict self);
     count := count self |}.

(** [d[k]] on a [dict]: raises [KeyError] on a missing key. *)
Definition dict_getitem (d : gmap Z Z) (k : Z) : result Z :=
  match d !! k with
  | Some v => Ok v
  | None => Raise (KeyError k)
  end.

(** [k in d] *)
Definition dict_contains (d : gmap Z Z) (k : Z) : bool :=
  bool_decide (is_Some (d !! k)).

(** The loop test
    [level not in self.level_dict or (self.level_dict[level]+self.offset) < start].
    [or] is short-circuit: the subscript is evaluated only when the key
    is present. *)
Definition level_is_free (self : Level) (lvl start : Z) : result bool :=
  if negb (dict_contains (level_dict self) lvl) then Ok true
  else
    e ←? dict_getitem (level_dict self) lvl ;;
    Ok (e + offset self <? start)%Z.

(** ** The two scanning loops of [__call__] *)

(** [while level <= self.max_depth: ...; level += 1], entered with the
    current value of [level].  Falling out of the loop reaches the final
    [return None]. *)
Equations? pos_loop (self : Level) (ID : string) (start end_ : Z) (lvl : Z)
  : result (Level * option enhanced_feature)
  by wf (Z.to_nat (max_depth self + 1 - lvl)) lt :=
pos_loop self ID start end_ lvl with decide (lvl ≤ max_depth self) => {
  | right _ => Ok (self, None)
  | left _ with level_is_free self lvl start => {
    | Raise e => Raise e
    | Ok true =>
        Ok (set_level self lvl end_,
            Some (mk_enhanced_feature ID start end_ (pos_arrowstyle self) lvl))
    | Ok false => pos_loop self ID start end_ (lvl + 1) } }.
Proof. lia. Qed.

(** [while level >= -self.max_depth: ...; level -= 1] *)
Equations? neg_loop (self : Level) (ID : string) (start end_ : Z) (lvl : Z)
  : result (Level * option enhanced_feature)
  by wf (Z.to_nat (max_depth self + 1 + lvl)) lt :=
neg_loop self ID start end_ lvl with decide (- max_depth self ≤ lvl) => {
  | right _ => Ok (self, None)
  | left _ with level_is_free self lvl start => {
    | Raise e => Raise e
    | Ok true =>
        Ok (set_level self lvl end_,
            Some (mk_enhanced_feature ID start end_ (neg_arrowstyle self) lvl))
    | Ok false => neg_loop self ID start end_ (lvl - 1) } }.
Proof. lia. Qed.

(** ** [Level.__call__] *)

Definition Level_call (self : Level) (ID : string) (start end_ : Z)
    (strand : string) : result (Level * option enhanced_feature) :=
  let self := incr_count self "all_features" in
  if (strand =? "+")%string && negb (filter_pos self) then
    let self := incr_count self "positive_features" in
    pos_loop self ID start end_ 1
  else if (strand =? "-")%string && negb (filter_neg self) then
    let self := incr_count self "negative_features" in
    neg_loop self ID start end_ (-1)
  else if (strand =? ".")%string && negb (filter_unstrand self) then
    let self := incr_count self "unstranded_features" in
    let self := set_level self 0 end_ in
    Ok (self, Some (mk_enhanced_feature ID start end_ (unstrand_arrowstyle self) 0))
  else Ok (self, None).

(** ** Iterated calls on one instance *)

(** One record of the feature source: the four arguments of one call. *)
Record feature : Type := mk_feature {
  f_ID : string;
  f_start : Z;
  f_end : Z;
  f_strand : string
}.

Definition call_feature (self : Level) (f : feature)
  : result (Level * option enhanced_feature) :=
  Level_call self (f_ID f) (f_start f) (f_end f) (f_strand f).

(** The caller's loop, [for f in features: out.append(level(...))], on a
    single [Level] object: the object after the last call and the values
    returned, in call order. *)
Fixpoint call_seq (self : Level) (fs : list feature)
  : result (Level * list (option enhanced_feature)) :=
  match fs with
  | [] => Ok (self, [])
  | f :: fs' =>
      p ←? call_feature self f ;;
      q ←? call_seq p.1 fs' ;;
      Ok (q.1, p.2 :: q.2)
  end.

(** ** Vocabulary of the specification *)

(** A level is eligible for a feature starting at [start] when it has no
    recorded end yet, or [recorded_end + offset < start]. *)
Definition eligible (self : Level) (start L : Z) : Prop :=
  match level_dict self !! L with
  | None => True
  | Some e => e + offset self < start
  end.

#[global] Instance eligible_dec self start L : Decision (eligible self start L).
Proof. unfold eligible. destruct (level_dict self !! L); apply _. Defined.

(** The object after the bookkeeping of a branch that was entered:
    the "all features" counter, then the counter of the class. *)
Definition entered (self : Level) (class : string) : Level :=
  incr_count (incr_count self "all_features") class.

(** ** Branches and outcomes of one call *)

(** [__call__] never changes the configuration attributes. *)
Definition same_config (s s' : Level) : Prop :=
  max_depth s' = max_depth s ∧ offset s' = offset s ∧
  pos_arrowstyle s' = pos_arrowstyle s ∧ neg_arrowstyle s' = neg_arrowstyle s ∧
  unstrand_arrowstyle s' = unstrand_arrowstyle s ∧
  filter_pos s' = filter_pos s ∧ filter_neg s' = filter_neg s ∧
  filter_unstrand s' = filter_unstrand s.

(** The guards of the three branches, as propositions. *)
Definition enters_pos (self : Level) (strand : string) : Prop :=
  strand = "+" ∧ filter_pos self = false.
Definition enters_neg (self : Level) (strand : string) : Prop :=
  strand = "-" ∧ filter_neg self = false.
Definition enters_unstrand (self : Level) (strand : string) : Prop :=
  strand = "." ∧ filter_unstrand self = false.

#[global] Instance enters_pos_dec self strand : Decision (enters_pos self strand).
Proof. unfold enters_pos. apply _. Defined.
#[global] Instance enters_neg_dec self strand : Decision (enters_neg self strand).
Proof. unfold enters_neg. apply _. Defined.
#[global] Instance enters_unstrand_dec self strand :
  Decision (enters_unstrand self strand).
Proof. unfold enters_unstrand. apply _. Defined.

(** Every way a call can end, read off the control flow of [__call__]. *)
Inductive call_outcome (self : Level) (ID : string) (start end_ : Z)
    (strand : string) : result (Level * option enhanced_feature) → Prop :=
| pos_assigned L :
    enters_pos self strand →
    1 ≤ L ≤ max_depth self →
    eligible self start L →
    (∀ L', 1 ≤ L' < L → ¬ eligible self start L') →
    call_outcome self ID start end_ strand
      (Ok (set_level (entered self "positive_features") L end_,
           Some (mk_enhanced_feature ID start end_ (pos_arrowstyle self) L)))
| pos_dropped :
    enters_pos self strand →
    (∀ L, 1 ≤ L ≤ max_depth self → ¬ eligible self start L) →
    call_outcome self ID start end_ strand
      (Ok (entered self "positive_features", None))
| neg_assigned L :
    enters_neg self strand →
    - max_depth self ≤ L ≤ -1 →
    eligible self start L →
    (∀ L', L < L' ≤ -1 → ¬ eligible self start L') →
    call_outcome self ID start end_ strand
      (Ok (set_level (entered self "negative_features") L end_,
           Some (mk_enhanced_feature ID start end_ (neg_arrowstyle self) L)))
| neg_dropped :
    enters_neg self strand →
    (∀ L, - max_depth self ≤ L ≤ -1 → ¬ eligible self start L) →
    call_outcome self ID start end_ strand
      (Ok (entered self "negative_features", None))
| unstrand_assigned :
    enters_unstrand self strand →
    call_outcome self ID start end_ strand
      (Ok (set_level (entered self "unstranded_features") 0 end_,
           Some (mk_enhanced_feature ID start end_ (unstrand_arrowstyle self) 0)))
| no_branch :
    ¬ enters_pos self strand → ¬ enters_neg self strand →
    ¬ enters_unstrand self strand →
    call_outcome self ID start end_ strand
      (Ok (incr_count self "all_features", None)).

(** ** Counters *)

(** [1] when the branch was entered, [0] otherwise. *)
Definition indicator (P : Prop) `{Decision P} : Z := if decide P then 1 else 0.

(** The number of features of a sequence that satisfy [P]. *)
Definition tally (P : feature → Prop) `{∀ f, Decision (P f)}
    (fs : list feature) : Z :=
  Z.of_nat (length (filter P fs)).

(** The four counters of one call: "all features" goes up by one; a
    class counter goes up by one exactly when the branch of the class is
    entered.  The returned value plays no part. *)
Definition counts_step (self s' : Level) (strand : string) : Prop :=
  counter_get (count s') "all_features" =
    counter_get (count self) "all_features" + 1 ∧
  counter_get (count s') "positive_features" =
    counter_get (count self) "positive_features"
    + indicator (enters_pos self strand) ∧
  counter_get (count s') "negative_features" =
    counter_get (count self) "negative_features"
    + indicator (enters_neg self strand) ∧
  counter_get (count s') "unstranded_features" =
    counter_get (count self) "unstranded_features"
    + indicator (enters_unstrand self strand).

(** ** Level map over time *)

(** Every level recorded in [m] is still recorded in [m'], with an end
    that is not smaller. *)
Definition recorded_ends_advance (m m' : gmap Z Z) : Prop :=
  ∀ L e, m !! L = Some e → ∃ e', m' !! L = Some e' ∧ e ≤ e'.

(** ** Readings and example engines *)

(** The engine of the specification's example scenarios
    ([max_depth = 2], [offset = 10]), with no class filtered. *)
Definition engine2 : Level := Level_init 2 10 false false false.

(** The reading of C3 under which every strand value other than ["+"]
    and ["-"] is handled as unstranded. *)
Definition unrecognized_goes_unstranded (self : Level) (ID0 : string)
    (start0 end0 : Z) (strand : string) : Prop :=
  strand ≠ "+" → strand ≠ "-" → filter_unstrand self = false →
  ∃ s', Level_call self ID0 start0 end0 strand =
          Ok (s', Some {| ID := ID0; start := start0; end_ := end0;
                          arrowstyle := unstrand_arrowstyle self; level := 0 |}) ∧
        counter_get (count s') "unstranded_features" =
          counter_get (count self) "unstranded_features" + 1.

(** ** The three read-only properties of [Level] *)

(** The keys of a [dict], as the iterable [d.keys()]; the builtins below
    do not depend on the order of iteration. *)
Definition dict_keys (d : gmap Z Z) : list Z := (map_to_list d).*1.

(** [min(xs)] on integers; [None] is the [ValueError] that the builtin
    raises on an empty iterable. *)
Definition py_min (xs : list Z) : option Z :=
  match xs with
  | [] => None
  | x :: xs' => Some (foldl Z.min x xs')
  end.

(** [max(xs)], likewise. *)
Definition py_max (xs : list Z) : option Z :=
  match xs with
  | [] => None
  | x :: xs' => Some (foldl Z.max x xs')
  end.

(** [Level.min_level]: [min(self.level_dict.keys())] *)
Definition min_level (self : Level) : option Z :=
  py_min (dict_keys (level_dict self)).

(** [Level.max_level]: [max(self.level_dict.keys())] *)
Definition max_level (self : Level) : option Z :=
  py_max (dict_keys (level_dict self)).

(** [Level.n_level]: [len(self.level_dict)] *)
Definition n_level (self : Level) : Z :=
  Z.of_nat (size (level_dict self)).

(** The three pools of level indices of an engine of depth [md]. *)
Definition in_pools (md L : Z) : Prop :=
  - md ≤ L ≤ -1 ∨ L = 0 ∨ 1 ≤ L ≤ md.

(** Levels are handed out from the baseline outwards: below a used
    positive level, and above a used negative one, every level of the
    pool is used. *)
Definition no_gaps (m : gmap Z Z) : Prop :=
  ∀ L, is_Some (m !! L) →
       ∀ L', (1 ≤ L' ≤ L ∨ L ≤ L' ≤ -1) → is_Some (m !! L').

(** ** Identifier extraction (src/JGV/Annotation_old.py) *)

(** Python [str] values are modelled by [string]; a character stands
    for the code point of the same number (below 256).  [is_space] is
    [str.isspace] on one character of that range: tab to carriage
    return, the four separators 28-31, space, NEL and no-break space. *)
Definition is_space (c : ascii) : bool :=
  let n := nat_of_ascii c in
  ((9 <=? n)%nat && (n <=? 13)%nat) || ((28 <=? n)%nat && (n <=? 32)%nat)
  || (n =? 133)%nat || (n =? 160)%nat.

(** [s.lstrip()] *)
Fixpoint lstrip (s : string) : string :=
  match s with
  | EmptyString => EmptyString
  | String c s' => if is_space c then lstrip s' else s
  end.

(** [s.rstrip()] *)
Fixpoint rstrip (s : string) : string :=
  match s with
  | EmptyString => EmptyString
  | String c s' =>
      match rstrip s' with
      | EmptyString => if is_space c then EmptyString else String c EmptyString
      | r => String c r
      end
  end.

(** [s.strip()] *)
Definition strip (s : string) : string := rstrip (lstrip s).

(** [s.split(sep)] for a separator of one character: the result is never
    empty, and empty fields are kept. *)
Fixpoint split (sep : ascii) (s : string) : list string :=
  match s with
  | EmptyString => [EmptyString]
  | String c s' =>
      if Ascii.eqb c sep then EmptyString :: split sep s'
      else match split sep s' with
           | h :: t => String c h :: t
           | [] => [String c EmptyString]
           end
  end.

(** [s[:-1]] *)
Fixpoint drop_last (s : string) : string :=
  match s with
  | EmptyString => EmptyString
  | String c EmptyString => EmptyString
  | String c s' => String c (drop_last s')
  end.

(** [s[1:-1]] *)
Definition slice_1_m1 (s : string) : string :=
  match s with
  | EmptyString => EmptyString
  | String _ s' => drop_last s'
  end.

(** The two attributes of a parsed annotation line that the extractors
    read: [line.feature] and [line.attributes]. *)
Record line : Type := mk_line {
  line_feature : string;
  line_attributes : string
}.

(** The loop of [_get_gff3_ID] over the fields of the attribute column. *)
Fixpoint gff3_scan (fields : list string) : string :=
  match fields with
  | [] => ""
  | a :: rest =>
      if negb (a =? "")%string then
        match split "=" (strip a) with
        | [k; v] => if (k =? "ID")%string then v else gff3_scan rest
        | _ => gff3_scan rest
        end
      else gff3_scan rest
  end.

(** [Annotation._get_gff3_ID] *)
Definition get_gff3_ID (l : line) : string :=
  gff3_scan (split ";" (strip (line_attributes l))).

(** The [if]/[elif] chain of [_get_gtf_ID]: the attribute that holds the
    identifier of a feature type; [None] is the [else: return ""]. *)
Definition gtf_id_field (feature_type : string) : option string :=
  if (feature_type =? "exon")%string then Some "exon_id"
  else if (feature_type =? "CDS")%string then Some "cdsid"
  else if (feature_type =? "transcript")%string then Some "transcript_id"
  else if (feature_type =? "gene")%string then Some "gene_id"
  else None.

(** The loop of [_get_gtf_ID]. *)
Fixpoint gtf_scan (id_field : string) (fields : list string) : string :=
  match fields with
  | [] => ""
  | a :: rest =>
      if negb (a =? "")%string then
        match split " " (strip a) with
        | [k; w] => if (k =? id_field)%string then slice_1_m1 w
                    else gtf_scan id_field rest
        | _ => gtf_scan id_field rest
        end
      else gtf_scan id_field rest
  end.

(** [Annotation._get_gtf_ID] *)
Definition get_gtf_ID (l : line) : string :=
  match gtf_id_field (line_feature l) with
  | None => ""
  | Some id_field => gtf_scan id_field (split ";" (strip (line_attributes l)))
  end.

(** *** Attribute columns as the two formats write them *)

(** Does the character occur in the string? *)
Fixpoint occurs (c : ascii) (s : string) : bool :=
  match s with
  | EmptyString => false
  | String c' s' => Ascii.eqb c' c || occurs c s'
  end.

(** Does the string begin, or end, with white space? *)
Definition head_space (s : string) : bool :=
  match s with
  | EmptyString => false
  | String c _ => is_space c
  end.

Fixpoint last_space (s : string) : bool :=
  match s with
  | EmptyString => false
  | String c EmptyString => is_space c
  | String _ s' => last_space s'
  end.

(** The value of the first pair with the given key, [""] without one. *)
Fixpoint assoc_first (key : string) (pairs : list (string * string)) : string :=
  match pairs with
  | [] => ""
  | (k, v) :: rest => if (k =? key)%string then v else assoc_first key rest
  end.

(** GFF3: [k1=v1;k2=v2;...]. *)
Fixpoint gff3_render (pairs : list (string * string)) : string :=
  match pairs with
  | [] => ""
  | [(k, v)] => k +:+ "=" +:+ v
  | (k, v) :: rest => k +:+ "=" +:+ v +:+ ";" +:+ gff3_render rest
  end.

(** A key and value that GFF3 can write as they are. *)
Definition gff3_ok (kv : string * string) : Prop :=
  head_space kv.1 = false ∧ occurs "=" kv.1 = false ∧ occurs ";" kv.1 = false ∧
  last_space kv.2 = false ∧ occurs "=" kv.2 = false ∧ occurs ";" kv.2 = false.

(** GTF: [k1 "v1"; k2 "v2";], the second component of a pair being the
    value as written, quotes included. *)
Fixpoint gtf_render_tail (pairs : list (string * string)) : string :=
  match pairs with
  | [] => ""
  | (k, w) :: rest => " " +:+ k +:+ " " +:+ w +:+ ";" +:+ gtf_render_tail rest
  end.

Definition gtf_render (pairs : list (string * string)) : string :=
  match pairs with
  | [] => ""
  | (k, w) :: rest => k +:+ " " +:+ w +:+ ";" +:+ gtf_render_tail rest
  end.

(** A key and a written value that GTF can hold. *)
Definition gtf_ok (kw : string * string) : Prop :=
  kw.1 ≠ "" ∧ head_space kw.1 = false ∧
  occurs " " kw.1 = false ∧ occurs ";" kw.1 = false ∧
  kw.2 ≠ "" ∧ last_space kw.2 = false ∧
  occurs " " kw.2 = false ∧ occurs ";" kw.2 = false.

(** [v] between double quotes. *)
Definition quoted (v : string) : string := String "034" (v +:+ String "034" "").

(** ** Proof automation *)

Ltac indicators :=
  unfold indicator;
  repeat match goal with
  | |- context [decide ?P] => destruct (decide P); try tauto
  end.

(** * Basic facts *)

Section Accessors.
Variables (self : Level) (k : string) (lvl e : Z).

Lemma level_dict_incr_count : level_dict (incr_count self k) = level_dict self.
Proof. reflexivity. Qed.

Lemma count_set_level : count (set_level self lvl e) = count self.
Proof. reflexivity. Qed.

Lemma counter_get_incr_eq :
  counter_get (count (incr_count self k)) k = counter_get (count self) k + 1.
Proof. unfold counter_get; simpl. by rewrite lookup_insert_eq. Qed.

Lemma counter_get_incr_ne k' :
  k ≠ k' →
  counter_get (count (incr_count self k)) k' = counter_get (count self) k'.
Proof. intros. unfold counter_get; simpl. by rewrite lookup_insert_ne. Qed.

End Accessors.

(** The loop test never raises: the subscript is guarded by the
    membership test, and it decides eligibility. *)
Lemma level_is_free_spec self lvl start :
  level_is_free self lvl start = Ok (bool_decide (eligible self start lvl)).
Proof.
  unfold level_is_free, dict_contains, dict_getitem.
  destruct (bool_decide (eligible self start lvl)) eqn:B.
  - apply bool_decide_eq_true in B. unfold eligible in B.
    destruct (level_dict self !! lvl) as [e|]; simpl; [| done].
    f_equal. lia.
  - apply bool_decide_eq_false in B. unfold eligible in B.
    destruct (level_dict self !! lvl) as [e|]; simpl; [| tauto].
    f_equal. lia.
Qed.

(** * The scanning loops *)

(** Turns the recorded outcome of the loop test into a fact about
    eligibility; the case where the test raised is closed. *)
Ltac loop_test :=
  try match goal with
  | H : level_is_free _ _ _ = _ |- _ =>
      rewrite level_is_free_spec in H; inversion H; clear H
  end;
  try match goal with
  | H : bool_decide _ = true |- _ => apply bool_decide_eq_true in H
  | H : bool_decide _ = false |- _ => apply bool_decide_eq_false in H
  | H : true = bool_decide _ |- _ => symmetry in H; apply bool_decide_eq_true in H
  | H : false = bool_decide _ |- _ => symmetry in H; apply bool_decide_eq_false in H
  end.

Lemma pos_loop_spec self ID start end_ lvl :
  (∃ L, lvl ≤ L ≤ max_depth self ∧ eligible self start L ∧
        (∀ L', lvl ≤ L' < L → ¬ eligible self start L') ∧
        pos_loop self ID start end_ lvl =
          Ok (set_level self L end_,
              Some (mk_enhanced_feature ID start end_ (pos_arrowstyle self) L)))
  ∨ ((∀ L, lvl ≤ L ≤ max_depth self → ¬ eligible self start L) ∧
     pos_loop self ID start end_ lvl = Ok (self, None)).
Proof.
  funelim (pos_loop self ID start end_ lvl); loop_test.
  - right. split; [intros; lia | done].
  - left. exists lvl. split_and!; [lia | lia | done | intros; lia | done].
  - destruct H as [(L & HL & He & Hmin & ->) | [Hno ->]]; [left | right].
    + exists L. split_and!; [lia | lia | done | | done].
      intros L' HL'. destruct (decide (L' = lvl)) as [-> | ?]; [done |].
      apply Hmin. lia.
    + split; [| done]. intros L HL.
      destruct (decide (L = lvl)) as [-> | ?]; [done |]. apply Hno. lia.
Qed.

Lemma neg_loop_spec self ID start end_ lvl :
  (∃ L, - max_depth self ≤ L ≤ lvl ∧ eligible self start L ∧
        (∀ L', L < L' ≤ lvl → ¬ eligible self start L') ∧
        neg_loop self ID start end_ lvl =
          Ok (set_level self L end_,
              Some (mk_enhanced_feature ID start end_ (neg_arrowstyle self) L)))
  ∨ ((∀ L, - max_depth self ≤ L ≤ lvl → ¬ eligible self start L) ∧
     neg_loop self ID start end_ lvl = Ok (self, None)).
Proof.
  funelim (neg_loop self ID start end_ lvl); loop_test.
  - right. split; [intros; lia | done].
  - left. exists lvl. split_and!; [lia | lia | done | intros; lia | done].
  - destruct H as [(L & HL & He & Hmin & ->) | [Hno ->]]; [left | right].
    + exists L. split_and!; [lia | lia | done | | done].
      intros L' HL'. destruct (decide (L' = lvl)) as [-> | ?]; [done |].
      apply Hmin. lia.
    + split; [| done]. intros L HL.
      destruct (decide (L = lvl)) as [-> | ?]; [done |]. apply Hno. lia.
Qed.

(** * One call *)

Lemma Level_call_pos self ID start end_ strand :
  enters_pos self strand →
  Level_call self ID start end_ strand =
    pos_loop (entered self "positive_features") ID start end_ 1.
Proof. intros [-> Hf]. unfold Level_call; simpl. by rewrite Hf. Qed.

Lemma Level_call_neg self ID start end_ strand :
  enters_neg self strand →
  Level_call self ID start end_ strand =
    neg_loop (entered self "negative_features") ID start end_ (-1).
Proof. intros [-> Hf]. unfold Level_call; simpl. by rewrite Hf. Qed.

Lemma Level_call_unstrand self ID start end_ strand :
  enters_unstrand self strand →
  Level_call self ID start end_ strand =
    Ok (set_level (entered self "unstranded_features") 0 end_,
        Some (mk_enhanced_feature ID start end_ (unstrand_arrowstyle self) 0)).
Proof. intros [-> Hf]. unfold Level_call; simpl. by rewrite Hf. Qed.

Lemma Level_call_no_branch self ID start end_ strand :
  ¬ enters_pos self strand → ¬ enters_neg self strand →
  ¬ enters_unstrand self strand →
  Level_call self ID start end_ strand = Ok (incr_count self "all_features", None).
Proof.
  unfold enters_pos, enters_neg, enters_unstrand, Level_call; simpl.
  intros Hp Hn Hu.
  destruct (String.eqb_spec strand "+") as [-> | ?]; simpl.
  { destruct (filter_pos self); [done | tauto]. }
  destruct (String.eqb_spec strand "-") as [-> | ?]; simpl.
  { destruct (filter_neg self); [done | tauto]. }
  destruct (String.eqb_spec strand ".") as [-> | ?]; simpl; [| done].
  destruct (filter_unstrand self); [done | tauto].
Qed.

Lemma Level_call_outcome self ID start end_ strand :
  call_outcome self ID start end_ strand (Level_call self ID start end_ strand).
Proof.
  destruct (decide (enters_pos self strand)) as [Hp | Hp].
  { rewrite Level_call_pos by done.
    destruct (pos_loop_spec (entered self "positive_features") ID start end_ 1)
      as [(L & HL & He & Hmin & ->) | [Hno ->]].
    - exact (pos_assigned self ID start end_ strand L Hp HL He Hmin).
    - exact (pos_dropped self ID start end_ strand Hp Hno). }
  destruct (decide (enters_neg self strand)) as [Hn | Hn].
  { rewrite Level_call_neg by done.
    destruct (neg_loop_spec (entered self "negative_features") ID start end_ (-1))
      as [(L & HL & He & Hmin & ->) | [Hno ->]].
    - exact (neg_assigned self ID start end_ strand L Hn HL He Hmin).
    - exact (neg_dropped self ID start end_ strand Hn Hno). }
  destruct (decide (enters_unstrand self strand)) as [Hu | Hu].
  { rewrite Level_call_unstrand by done. by apply unstrand_assigned. }
  rewrite Level_call_no_branch by done. by apply no_branch.
Qed.

(** A call returns normally. *)
Lemma Level_call_returns self ID start end_ strand :
  ∃ s' r, Level_call self ID start end_ strand = Ok (s', r).
Proof. destruct (Level_call_outcome self ID start end_ strand); eauto. Qed.

(** What a call does to the attributes of the object: the configuration
    is kept, and the level map receives at most one binding, the one of
    the level that is returned. *)
Lemma Level_call_effect self ID start end_ strand s' r :
  Level_call self ID start end_ strand = Ok (s', r) →
  same_config self s' ∧
  level_dict s' = match r with
                  | Some ef => <[level ef := end_]> (level_dict self)
                  | None => level_dict self
                  end.
Proof.
  intros E. pose proof (Level_call_outcome self ID start end_ strand) as O.
  rewrite E in O. unfold same_config.
  inversion O; subst; simpl; done.
Qed.

(** Inverting a call that returned a feature. *)
Lemma Level_call_Some self ID0 start0 end0 strand s' ef :
  Level_call self ID0 start0 end0 strand = Ok (s', Some ef) →
  ID ef = ID0 ∧ start ef = start0 ∧ end_ ef = end0 ∧
  ((enters_pos self strand ∧ 1 ≤ level ef ≤ max_depth self ∧
    eligible self start0 (level ef) ∧ arrowstyle ef = pos_arrowstyle self) ∨
   (enters_neg self strand ∧ - max_depth self ≤ level ef ≤ -1 ∧
    eligible self start0 (level ef) ∧ arrowstyle ef = neg_arrowstyle self) ∨
   (enters_unstrand self strand ∧ level ef = 0 ∧
    arrowstyle ef = unstrand_arrowstyle self)).
Proof.
  intros E. pose proof (Level_call_outcome self ID0 start0 end0 strand) as O.
  rewrite E in O. inversion O; subst; simpl; split_and!; try done.
  - left. done.
  - right; left. done.
  - right; right. done.
Qed.

(** * Properties of the level-assignment engine *)

(** C1. First-fit scan.  A call with strand ["+"] and [filter_pos] false
    scans the levels [1, 2, ..., max_depth] in ascending order: either
    some level of that range is eligible, and then the first eligible
    one [L] receives the feature's end as its recorded end and the call
    returns the feature with [pos_arrowstyle] and level [L]; or no level
    of the range is eligible and the call returns [None] with the level
    map untouched.  A call with strand ["-"] and [filter_neg] false does
    the same over [-1, -2, ..., -max_depth] with [neg_arrowstyle].
    [entered] is the bookkeeping on the counters only. *)
Theorem C1_first_fit_scan self ID0 start0 end0 strand :
  (enters_pos self strand →
     (∃ L, 1 ≤ L ≤ max_depth self ∧ eligible self start0 L ∧
           (∀ L', 1 ≤ L' < L → ¬ eligible self start0 L') ∧
           Level_call self ID0 start0 end0 strand =
             Ok (set_level (entered self "positive_features") L end0,
                 Some {| ID := ID0; start := start0; end_ := end0;
                         arrowstyle := pos_arrowstyle self; level := L |}))
     ∨ ((∀ L, 1 ≤ L ≤ max_depth self → ¬ eligible self start0 L) ∧
        Level_call self ID0 start0 end0 strand =
          Ok (entered self "positive_features", None)))
  ∧
  (enters_neg self strand →
     (∃ L, - max_depth self ≤ L ≤ -1 ∧ eligible self start0 L ∧
           (∀ L', L < L' ≤ -1 → ¬ eligible self start0 L') ∧
           Level_call self ID0 start0 end0 strand =
             Ok (set_level (entered self "negative_features") L end0,
                 Some {| ID := ID0; start := start0; end_ := end0;
                         arrowstyle := neg_arrowstyle self; level := L |}))
     ∨ ((∀ L, - max_depth self ≤ L ≤ -1 → ¬ eligible self start0 L) ∧
        Level_call self ID0 start0 end0 strand =
          Ok (entered self "negative_features", None))).
Proof.
  split; intros Hb.
  - rewrite (Level_call_pos _ _ _ _ _ Hb).
    exact (pos_loop_spec (entered self "positive_features") ID0 start0 end0 1).
  - rewrite (Level_call_neg _ _ _ _ _ Hb).
    exact (neg_loop_spec (entered self "negative_features") ID0 start0 end0 (-1)).
Qed.

Lemma C1_first_fit_scan_witness :
  (enters_pos engine2 "+" ∧ ∃ r, Level_call engine2 "A" 0 100 "+" = Ok r) ∧
  (enters_neg engine2 "-" ∧ ∃ r, Level_call engine2 "A" 0 100 "-" = Ok r).
Proof.
  assert (Hp : enters_pos engine2 "+") by (split; reflexivity).
  assert (Hn : enters_neg engine2 "-") by (split; reflexivity).
  split; split; trivial.
  - destruct (proj1 (C1_first_fit_scan engine2 "A" 0 100 "+") Hp)
      as [(L & _ & _ & _ & E) | [_ E]]; eexists; exact E.
  - destruct (proj2 (C1_first_fit_scan engine2 "A" 0 100 "-") Hn)
      as [(L & _ & _ & _ & E) | [_ E]]; eexists; exact E.
Defined.

(** The first call of scenario 1. *)
Example scenario1_A :
  Level_call (Level_init 2 10 false false true) "A" 0 100 "+"
  = Ok (set_level (incr_count (incr_count (Level_init 2 10 false false true)
          "all_features") "positive_features") 1 100,
        Some (mk_enhanced_feature "A" 0 100 "-|>,head_width=1,head_length=2" 1)).
Proof. vm_compute. reflexivity. Qed.

(** Scenario 1 of the specification: A(0,100), B(90,150), C(200,250) on
    the positive strand go to levels 1, 2, 1. *)
Example scenario1 :
  ∃ s, call_seq engine2 [mk_feature "A" 0 100 "+"; mk_feature "B" 90 150 "+";
                         mk_feature "C" 200 250 "+"]
       = Ok (s, [Some (mk_enhanced_feature "A" 0 100 (pos_arrowstyle engine2) 1);
                 Some (mk_enhanced_feature "B" 90 150 (pos_arrowstyle engine2) 2);
                 Some (mk_enhanced_feature "C" 200 250 (pos_arrowstyle engine2) 1)])
     ∧ level_dict s = <[1 := 250]> (<[2 := 150]> ∅).
Proof. eexists. split; [vm_compute; reflexivity | by vm_compute]. Qed.

(** Scenario 2: with [max_depth = 1], B(50,80) finds no level and is
    dropped; both counters stand at 2. *)
Example scenario2 :
  ∃ s, call_seq (Level_init 1 10 false false true)
         [mk_feature "A" 0 100 "+"; mk_feature "B" 50 80 "+"]
       = Ok (s, [Some (mk_enhanced_feature "A" 0 100
                         "-|>,head_width=1,head_length=2" 1);
                 None])
     ∧ counter_get (count s) "positive_features" = 2
     ∧ counter_get (count s) "all_features" = 2.
Proof. eexists. split; [vm_compute; reflexivity | by vm_compute]. Qed.

(** C2. Unstranded overwrite.  A call with strand ["."] and
    [filter_unstrand] false sets the recorded end of level 0 to the
    feature's end, whatever was recorded there, and returns the feature
    with [unstrand_arrowstyle] and level 0.  A second such call right
    after it again returns level 0, and neither its result nor the level
    map it leaves depends on the end of the first feature. *)
Theorem C2_unstranded_overwrite self ID1 start1 end1 ID2 start2 end2 :
  filter_unstrand self = false →
  let s1 := set_level (entered self "unstranded_features") 0 end1 in
  Level_call self ID1 start1 end1 "." =
    Ok (s1, Some {| ID := ID1; start := start1; end_ := end1;
                    arrowstyle := unstrand_arrowstyle self; level := 0 |}) ∧
  level_dict s1 = <[0 := end1]> (level_dict self) ∧
  ∃ s2, Level_call s1 ID2 start2 end2 "." =
          Ok (s2, Some {| ID := ID2; start := start2; end_ := end2;
                          arrowstyle := unstrand_arrowstyle self; level := 0 |}) ∧
        level_dict s2 = <[0 := end2]> (level_dict self).
Proof.
  intros Hf s1. split_and!.
  - by apply Level_call_unstrand.
  - reflexivity.
  - eexists. split.
    + apply (Level_call_unstrand s1). by split.
    + simpl. apply insert_insert_eq.
Qed.

(** Scenario 3 of the specification: X(0,50) then Y(10,20). *)
Lemma C2_unstranded_overwrite_witness :
  filter_unstrand engine2 = false ∧
  ∃ s2, Level_call (set_level (entered engine2 "unstranded_features") 0 50)
          "Y" 10 20 "." =
          Ok (s2, Some {| ID := "Y"; start := 10; end_ := 20;
                          arrowstyle := "-"; level := 0 |}) ∧
        level_dict s2 = <[0 := 20]> ∅.
Proof.
  split; [reflexivity |].
  exact (proj2 (proj2
    (C2_unstranded_overwrite engine2 "X" 0 50 "Y" 10 20 eq_refl))).
Defined.

(** The third guard is [strand == "."]: the strand ["?"] (GFF3's
    "relevant but unknown") enters no branch, even with nothing filtered. *)
Lemma C3_unrecognized_strand_dropped :
  Level_call engine2 "g" 0 50 "?" = Ok (incr_count engine2 "all_features", None) ∧
  ¬ unrecognized_goes_unstranded engine2 "g" 0 50 "?".
Proof.
  assert (E : Level_call engine2 "g" 0 50 "?"
              = Ok (incr_count engine2 "all_features", None))
    by (vm_compute; reflexivity).
  split; [exact E |].
  intros H.
  destruct (H ltac:(discriminate) ltac:(discriminate) eq_refl) as (s' & E' & _).
  rewrite E in E'. discriminate E'.
Qed.

(** C3 (amended).  The unstranded branch is taken exactly by the strand
    ["."] when [filter_unstrand] is false: the call increments the
    "unstranded" counter and returns the feature with
    [unstrand_arrowstyle] and level 0.  A strand that is none of ["+"],
    ["-"], ["."] enters no branch, whatever the filters: the call returns
    [None], increments the "all features" counter only and leaves the
    level map as it was. *)
Theorem C3_unstranded_branch self ID0 start0 end0 strand :
  (enters_unstrand self strand →
     ∃ s', Level_call self ID0 start0 end0 strand =
             Ok (s', Some {| ID := ID0; start := start0; end_ := end0;
                             arrowstyle := unstrand_arrowstyle self; level := 0 |}) ∧
           counter_get (count s') "unstranded_features" =
             counter_get (count self) "unstranded_features" + 1)
  ∧
  (strand ≠ "+" → strand ≠ "-" → strand ≠ "." →
     Level_call self ID0 start0 end0 strand =
       Ok (incr_count self "all_features", None)).
Proof.
  split.
  - intros Hb. eexists. split; [by apply Level_call_unstrand |].
    simpl. unfold counter_get. rewrite lookup_insert_eq.
    by rewrite lookup_insert_ne.
  - intros Hp Hn Hu. apply Level_call_no_branch; by intros [? _].
Qed.

Lemma C3_unstranded_branch_witness :
  (enters_unstrand engine2 "." ∧
   ∃ s', Level_call engine2 "X" 0 50 "." =
           Ok (s', Some {| ID := "X"; start := 0; end_ := 50;
                           arrowstyle := "-"; level := 0 |}) ∧
         counter_get (count s') "unstranded_features" = 0 + 1) ∧
  ("?" ≠ "+" ∧ "?" ≠ "-" ∧ "?" ≠ "." ∧
   Level_call engine2 "g" 0 50 "?" = Ok (incr_count engine2 "all_features", None)).
Proof.
  assert (Hu : enters_unstrand engine2 ".") by (split; reflexivity).
  assert (N1 : "?" ≠ "+") by discriminate.
  assert (N2 : "?" ≠ "-") by discriminate.
  assert (N3 : "?" ≠ ".") by discriminate.
  split.
  - split; [exact Hu |].
    exact (proj1 (C3_unstranded_branch engine2 "X" 0 50 ".") Hu).
  - split; [exact N1 |]. split; [exact N2 |]. split; [exact N3 |].
    exact (proj2 (C3_unstranded_branch engine2 "g" 0 50 "?") N1 N2 N3).
Defined.

(** * Sequences of calls *)

Lemma same_config_refl s : same_config s s.
Proof. unfold same_config. done. Qed.

Lemma same_config_trans s1 s2 s3 :
  same_config s1 s2 → same_config s2 s3 → same_config s1 s3.
Proof. unfold same_config. intuition congruence. Qed.

(** Unfolding one step of the caller's loop. *)
Lemma call_seq_cons self f fs s' rs :
  call_seq self (f :: fs) = Ok (s', rs) →
  ∃ s1 r rs', call_feature self f = Ok (s1, r) ∧
              call_seq s1 fs = Ok (s', rs') ∧ rs = r :: rs'.
Proof.
  simpl. destruct (call_feature self f) as [[s1 r] |]; simpl; [| done].
  destruct (call_seq s1 fs) as [[s2 rs'] |] eqn:E2; simpl; [| done].
  intros [= <- <-]. by exists s1, r, rs'.
Qed.

Lemma call_seq_returns fs : ∀ self, ∃ s' rs, call_seq self fs = Ok (s', rs).
Proof.
  induction fs as [| f fs IH]; intros self; simpl; [eauto |].
  destruct (Level_call_returns self (f_ID f) (f_start f) (f_end f) (f_strand f))
    as (s1 & r & E).
  unfold call_feature. rewrite E; simpl.
  destruct (IH s1) as (s2 & rs & E2). rewrite E2; simpl. eauto.
Qed.

(** Over any sequence of calls the configuration is kept, one value is
    returned per call, no level key is lost, and a level that none of
    the calls returned keeps its recorded end. *)
Lemma call_seq_effect fs : ∀ self s' rs,
  call_seq self fs = Ok (s', rs) →
  same_config self s' ∧ length rs = length fs ∧
  (∀ L, is_Some (level_dict self !! L) → is_Some (level_dict s' !! L)) ∧
  (∀ L, Forall (λ r, ∀ ef, r = Some ef → level ef ≠ L) rs →
        level_dict s' !! L = level_dict self !! L).
Proof.
  induction fs as [| f fs IH]; intros self s' rs E.
  - injection E as <- <-. split_and!; auto using same_config_refl.
  - apply call_seq_cons in E as (s1 & r & rs' & E1 & E2 & ->).
    apply Level_call_effect in E1 as [C1 D1].
    apply IH in E2 as (C2 & Hlen & K2 & U2).
    split_and!.
    + by eapply same_config_trans.
    + simpl. by rewrite Hlen.
    + intros L HL. apply K2. rewrite D1. destruct r as [ef |]; [| done].
      destruct (decide (level ef = L)) as [-> | ?].
      * rewrite lookup_insert_eq. eauto.
      * by rewrite lookup_insert_ne.
    + intros L HF. apply Forall_cons in HF as [Hr HF].
      rewrite (U2 L HF), D1. destruct r as [ef |]; [| done].
      rewrite lookup_insert_ne; [done |]. by apply Hr.
Qed.

(** On an engine built by [__init__] the three styles are, at any later
    time, the literals [__init__] stored. *)
Lemma arrowstyles_after_init max_depth0 offset0 fp fn fu fs s' rs :
  call_seq (Level_init max_depth0 offset0 fp fn fu) fs = Ok (s', rs) →
  pos_arrowstyle s' = "-|>,head_width=1,head_length=2" ∧
  neg_arrowstyle s' = "<|-,head_width=1,head_length=2" ∧
  unstrand_arrowstyle s' = "-".
Proof.
  intros E. apply call_seq_effect in E as ((_ & _ & -> & -> & -> & _) & _).
  done.
Qed.

(** C4. Spacing invariant.  Take two calls on one engine, the first
    returning a feature on level [L], the second, any number of calls
    later, returning a feature on the same level [L ≠ 0].  Just before
    the second call level [L] has a recorded end [e], and the start of
    the second feature passes the eligibility test against it:
    [e + offset < start₂].  When no call in between returned level [L],
    that recorded end is the end of the first feature. *)
Theorem C4_spacing_invariant s f1 s1 ef1 mid s2 rs f2 s3 ef2 :
  call_feature s f1 = Ok (s1, Some ef1) →
  call_seq s1 mid = Ok (s2, rs) →
  call_feature s2 f2 = Ok (s3, Some ef2) →
  level ef1 = level ef2 →
  level ef2 ≠ 0 →
  ∃ e, level_dict s2 !! level ef2 = Some e ∧
       e + offset s < f_start f2 ∧
       (Forall (λ r, ∀ ef, r = Some ef → level ef ≠ level ef2) rs →
        e = f_end f1).
Proof.
  intros E1 Emid E2 HL Hnz.
  apply Level_call_effect in E1 as [C1 D1]. simpl in D1. rewrite HL in D1.
  apply call_seq_effect in Emid as (Cm & _ & Km & Um).
  assert (Hin : level_dict s1 !! level ef2 = Some (f_end f1))
    by (rewrite D1; apply lookup_insert_eq).
  destruct (Km (level ef2)) as [e He]; [by rewrite Hin; eauto |].
  assert (Hoff : offset s2 = offset s).
  { destruct Cm as (_ & -> & _). by destruct C1 as (_ & -> & _). }
  apply Level_call_Some in E2 as (_ & _ & _ & Hb).
  assert (Hel : eligible s2 (f_start f2) (level ef2)).
  { destruct Hb as [(_ & _ & H & _) | [(_ & _ & H & _) | (_ & H & _)]]; done. }
  unfold eligible in Hel. rewrite He, Hoff in Hel.
  exists e. split_and!; [done | done |].
  intros HF. rewrite (Um _ HF), Hin in He. by injection He.
Qed.

(** Scenario 1: A and C share level 1, with B in between on level 2. *)
Lemma C4_spacing_invariant_witness :
  ∃ e, e + offset engine2 < 200 ∧ e = 100.
Proof.
  pose (fA := mk_feature "A" 0 100 "+").
  pose (fB := mk_feature "B" 90 150 "+").
  pose (fC := mk_feature "C" 200 250 "+").
  pose (efA := mk_enhanced_feature "A" 0 100 (pos_arrowstyle engine2) 1).
  pose (efB := mk_enhanced_feature "B" 90 150 (pos_arrowstyle engine2) 2).
  pose (efC := mk_enhanced_feature "C" 200 250 (pos_arrowstyle engine2) 1).
  pose (s1 := set_level (entered engine2 "positive_features") 1 100).
  pose (s2 := set_level (entered s1 "positive_features") 2 150).
  pose (s3 := set_level (entered s2 "positive_features") 1 250).
  assert (E1 : call_feature engine2 fA = Ok (s1, Some efA))
    by (vm_compute; reflexivity).
  assert (Em : call_seq s1 [fB] = Ok (s2, [Some efB]))
    by (vm_compute; reflexivity).
  assert (E2 : call_feature s2 fC = Ok (s3, Some efC))
    by (vm_compute; reflexivity).
  assert (HL : level efA = level efC) by reflexivity.
  assert (Hnz : level efC ≠ 0) by (simpl; lia).
  assert (HF : Forall (λ r, ∀ ef, r = Some ef → level ef ≠ level efC) [Some efB]).
  { constructor; [| constructor]. intros ef Hef. injection Hef as <-. simpl. lia. }
  destruct (C4_spacing_invariant engine2 fA s1 efA [fB] s2 [Some efB] fC s3 efC
              E1 Em E2 HL Hnz) as (e & _ & Hlt & Hend).
  exists e. split; [exact Hlt | exact (Hend HF)].
Defined.

(** C5. Bounds invariant.  The level of a returned feature lies in
    [{-max_depth, ..., -1}], is [0], or lies in [{1, ..., max_depth}]. *)
Theorem C5_level_bounds self ID0 start0 end0 strand s' ef :
  Level_call self ID0 start0 end0 strand = Ok (s', Some ef) →
  - max_depth self ≤ level ef ≤ -1 ∨ level ef = 0 ∨ 1 ≤ level ef ≤ max_depth self.
Proof.
  intros E. apply Level_call_Some in E as (_ & _ & _ & Hb).
  destruct Hb as [(_ & H & _) | [(_ & H & _) | (_ & H & _)]]; auto.
Qed.

Lemma C5_level_bounds_witness :
  - max_depth engine2 ≤ -1 ≤ -1 ∨ -1 = 0 ∨ 1 ≤ -1 ≤ max_depth engine2.
Proof.
  exact (C5_level_bounds engine2 "m" 5 9 "-"
           (set_level (entered engine2 "negative_features") (-1) 9)
           (mk_enhanced_feature "m" 5 9 (neg_arrowstyle engine2) (-1))
           eq_refl).
Defined.

(** * Counters *)

Lemma enters_exclusive self strand :
  (enters_pos self strand → ¬ enters_neg self strand ∧ ¬ enters_unstrand self strand) ∧
  (enters_neg self strand → ¬ enters_pos self strand ∧ ¬ enters_unstrand self strand) ∧
  (enters_unstrand self strand → ¬ enters_pos self strand ∧ ¬ enters_neg self strand).
Proof.
  unfold enters_pos, enters_neg, enters_unstrand.
  split_and!; intros [-> _]; split; intros [? _]; discriminate.
Qed.

Lemma enters_same_config s s' strand :
  same_config s s' →
  (enters_pos s' strand ↔ enters_pos s strand) ∧
  (enters_neg s' strand ↔ enters_neg s strand) ∧
  (enters_unstrand s' strand ↔ enters_unstrand s strand).
Proof.
  unfold same_config, enters_pos, enters_neg, enters_unstrand.
  intros (_ & _ & _ & _ & _ & -> & -> & ->). done.
Qed.

Lemma counter_get_incr self k k' :
  counter_get (count (incr_count self k)) k' =
    counter_get (count self) k' + (if decide (k = k') then 1 else 0).
Proof.
  destruct (decide (k = k')) as [<- | Hne].
  - apply counter_get_incr_eq.
  - rewrite counter_get_incr_ne by done. lia.
Qed.

Lemma counter_get_entered self class k :
  counter_get (count (entered self class)) k =
    counter_get (count self) k
    + (if decide ("all_features" = k) then 1 else 0)
    + (if decide (class = k) then 1 else 0).
Proof. unfold entered. by rewrite !counter_get_incr. Qed.

Lemma Level_call_counts self ID0 start0 end0 strand s' r :
  Level_call self ID0 start0 end0 strand = Ok (s', r) →
  counts_step self s' strand.
Proof.
  intros E. pose proof (Level_call_outcome self ID0 start0 end0 strand) as O.
  rewrite E in O. pose proof (enters_exclusive self strand) as (Xp & Xn & Xu).
  unfold counts_step.
  inversion O; subst; rewrite ?count_set_level;
    rewrite ?counter_get_entered, ?counter_get_incr;
    indicators; split_and!; repeat case_decide; try discriminate; lia.
Qed.

Lemma tally_nil (P : feature → Prop) `{∀ f, Decision (P f)} : tally P [] = 0.
Proof. reflexivity. Qed.

Lemma tally_cons (P : feature → Prop) `{∀ f, Decision (P f)} f fs :
  tally P (f :: fs) = indicator (P f) + tally P fs.
Proof.
  unfold tally, indicator. rewrite filter_cons.
  destruct (decide (P f)); simpl; lia.
Qed.

Lemma tally_ext (P Q : feature → Prop)
    `{∀ f, Decision (P f)} `{∀ f, Decision (Q f)} fs :
  (∀ f, P f ↔ Q f) → tally P fs = tally Q fs.
Proof.
  intros HPQ. induction fs as [| f fs IH]; [done |].
  rewrite !tally_cons, IH. unfold indicator.
  destruct (decide (P f)), (decide (Q f)); try done; exfalso; firstorder.
Qed.

(** The counters after a sequence of calls. *)
Lemma call_seq_counts fs : ∀ self s' rs,
  call_seq self fs = Ok (s', rs) →
  counter_get (count s') "all_features" =
    counter_get (count self) "all_features" + Z.of_nat (length fs) ∧
  counter_get (count s') "positive_features" =
    counter_get (count self) "positive_features"
    + tally (λ f, enters_pos self (f_strand f)) fs ∧
  counter_get (count s') "negative_features" =
    counter_get (count self) "negative_features"
    + tally (λ f, enters_neg self (f_strand f)) fs ∧
  counter_get (count s') "unstranded_features" =
    counter_get (count self) "unstranded_features"
    + tally (λ f, enters_unstrand self (f_strand f)) fs.
Proof.
  induction fs as [| f fs IH]; intros self s' rs E.
  - injection E as <- <-. rewrite !tally_nil. simpl. lia.
  - apply call_seq_cons in E as (s1 & r & rs' & E1 & E2 & ->).
    pose proof (Level_call_effect _ _ _ _ _ _ _ E1) as [C1 _].
    apply Level_call_counts in E1 as (A1 & P1 & N1 & U1).
    apply IH in E2 as (A2 & P2 & N2 & U2).
    rewrite !tally_cons.
    rewrite (tally_ext (λ f, enters_pos s1 (f_strand f))
                       (λ f, enters_pos self (f_strand f))) in P2
      by (intros; apply (enters_same_config _ _ _ C1)).
    rewrite (tally_ext (λ f, enters_neg s1 (f_strand f))
                       (λ f, enters_neg self (f_strand f))) in N2
      by (intros; apply (enters_same_config _ _ _ C1)).
    rewrite (tally_ext (λ f, enters_unstrand s1 (f_strand f))
                       (λ f, enters_unstrand self (f_strand f))) in U2
      by (intros; apply (enters_same_config _ _ _ C1)).
    simpl length. lia.
Qed.

(** C6. Count invariant.  Every call returns and moves the counters as
    [counts_step] says: "all features" by one, a class counter by one
    exactly when the branch of that class is entered (the strand is the
    one of the class and the class is not filtered), whether the feature
    is then assigned or dropped.  After any sequence of calls "all
    features" has grown by the number of calls and each class counter by
    the number of calls that entered its branch; on a fresh engine, whose
    counters read 0, "all features" is the number of calls made. *)
Theorem C6_count_invariant :
  (∀ self ID0 start0 end0 strand,
     ∃ s' r, Level_call self ID0 start0 end0 strand = Ok (s', r) ∧
             counts_step self s' strand) ∧
  (∀ self fs,
     ∃ s' rs, call_seq self fs = Ok (s', rs) ∧
       counter_get (count s') "all_features" =
         counter_get (count self) "all_features" + Z.of_nat (length fs) ∧
       counter_get (count s') "positive_features" =
         counter_get (count self) "positive_features"
         + tally (λ f, enters_pos self (f_strand f)) fs ∧
       counter_get (count s') "negative_features" =
         counter_get (count self) "negative_features"
         + tally (λ f, enters_neg self (f_strand f)) fs ∧
       counter_get (count s') "unstranded_features" =
         counter_get (count self) "unstranded_features"
         + tally (λ f, enters_unstrand self (f_strand f)) fs) ∧
  (∀ max_depth0 offset0 fp fn fu fs,
     ∃ s' rs, call_seq (Level_init max_depth0 offset0 fp fn fu) fs = Ok (s', rs) ∧
       counter_get (count s') "all_features" = Z.of_nat (length fs)).
Proof.
  split_and!.
  - intros. destruct (Level_call_returns self ID0 start0 end0 strand)
      as (s' & r & E).
    exists s', r. split; [done |]. by eapply Level_call_counts.
  - intros. destruct (call_seq_returns fs self) as (s' & rs & E).
    exists s', rs. split; [done |]. exact (call_seq_counts fs self s' rs E).
  - intros. destruct (call_seq_returns fs
      (Level_init max_depth0 offset0 fp fn fu)) as (s' & rs & E).
    exists s', rs. split; [done |].
    apply call_seq_counts in E as (A & _). rewrite A. reflexivity.
Qed.

(** Scenario 4 of the specification: with [filter_neg] set, a feature on
    the negative strand is dropped and only "all features" moves. *)
Example scenario4 :
  ∃ s, Level_call (Level_init 2 10 false true true) "m" 5 9 "-" = Ok (s, None)
     ∧ counter_get (count s) "negative_features" = 0
     ∧ counter_get (count s) "all_features" = 1
     ∧ level_dict s = ∅.
Proof. eexists. split; [vm_compute; reflexivity | by vm_compute]. Qed.

(** C7. Filtered classes.  When the strand is ["+"] and [filter_pos] is
    set, or the strand is ["-"] and [filter_neg] is set, or the strand is
    neither and [filter_unstrand] is set, the call returns [None]; the
    object it leaves is the one before the call with "all features"
    incremented: same level map, same class counters. *)
Theorem C7_filtered_dropped self ID0 start0 end0 strand :
  (strand = "+" ∧ filter_pos self = true) ∨
  (strand = "-" ∧ filter_neg self = true) ∨
  (strand ≠ "+" ∧ strand ≠ "-" ∧ filter_unstrand self = true) →
  ∃ s', Level_call self ID0 start0 end0 strand = Ok (s', None) ∧
        s' = incr_count self "all_features" ∧
        level_dict s' = level_dict self ∧
        counter_get (count s') "all_features" =
          counter_get (count self) "all_features" + 1 ∧
        ∀ k, k ≠ "all_features" →
             counter_get (count s') k = counter_get (count self) k.
Proof.
  intros H. exists (incr_count self "all_features").
  split_and!; try done.
  - apply Level_call_no_branch; unfold enters_pos, enters_neg, enters_unstrand;
      intros [-> Hf];
      destruct H as [[? ?] | [[? ?] | (? & ? & ?)]]; congruence.
  - apply counter_get_incr_eq.
  - intros k Hk. by apply counter_get_incr_ne.
Qed.

Lemma C7_filtered_dropped_witness :
  ("-" = "-" ∧ filter_neg (Level_init 2 10 false true true) = true) ∧
  ∃ s', Level_call (Level_init 2 10 false true true) "m" 5 9 "-" = Ok (s', None).
Proof.
  assert (H : "-" = "-" ∧ filter_neg (Level_init 2 10 false true true) = true)
    by (split; reflexivity).
  split; [exact H |].
  destruct (C7_filtered_dropped (Level_init 2 10 false true true) "m" 5 9 "-"
              (or_intror (or_introl H))) as (s' & E & _).
  exists s'. exact E.
Defined.

(** * The level map over the lifetime of an engine *)

(** Scenario 3 of the specification, X(0,50) then Y(10,20), both
    unstranded: the recorded end of level 0 goes from 50 back to 20. *)
Lemma C8_level0_end_decreases :
  ∃ s1 r1 s2 r2,
    Level_call engine2 "X" 0 50 "." = Ok (s1, r1) ∧
    Level_call s1 "Y" 10 20 "." = Ok (s2, r2) ∧
    level_dict s1 !! 0 = Some 50 ∧ level_dict s2 !! 0 = Some 20 ∧
    ¬ recorded_ends_advance (level_dict s1) (level_dict s2).
Proof.
  pose (s1 := set_level (entered engine2 "unstranded_features") 0 50).
  pose (s2 := set_level (entered s1 "unstranded_features") 0 20).
  assert (H1 : level_dict s1 !! 0 = Some 50) by (by vm_compute).
  assert (H2 : level_dict s2 !! 0 = Some 20) by (by vm_compute).
  exists s1, (Some (mk_enhanced_feature "X" 0 50 "-" 0)),
         s2, (Some (mk_enhanced_feature "Y" 10 20 "-" 0)).
  split; [vm_compute; reflexivity |].
  split; [vm_compute; reflexivity |].
  split; [exact H1 |]. split; [exact H2 |].
  intros Adv. destruct (Adv 0 50 H1) as (e' & He' & Hle).
  rewrite H2 in He'. injection He' as <-. lia.
Qed.

Lemma Level_call_advance self ID0 start0 end0 strand s' r :
  Level_call self ID0 start0 end0 strand = Ok (s', r) →
  0 ≤ offset self → start0 ≤ end0 →
  ∀ L e, L ≠ 0 → level_dict self !! L = Some e →
         ∃ e', level_dict s' !! L = Some e' ∧ e ≤ e'.
Proof.
  intros E Hoff Hse L e HL0 He.
  pose proof (Level_call_effect _ _ _ _ _ _ _ E) as [_ D]. rewrite D.
  destruct r as [ef |]; [| eauto with lia].
  destruct (decide (level ef = L)) as [HL | HL].
  - rewrite HL, lookup_insert_eq. exists end0. split; [done |].
    apply Level_call_Some in E as (_ & _ & _ & Hb).
    assert (Hel : eligible self start0 L).
    { rewrite <- HL.
      destruct Hb as [(_ & _ & H & _) | [(_ & _ & H & _) | (_ & H & _)]];
        [done | done | congruence]. }
    unfold eligible in Hel. rewrite He in Hel. lia.
  - rewrite lookup_insert_ne by done. eauto with lia.
Qed.

Lemma call_seq_advance fs : ∀ self s' rs,
  call_seq self fs = Ok (s', rs) →
  0 ≤ offset self → Forall (λ f, f_start f ≤ f_end f) fs →
  ∀ L e, L ≠ 0 → level_dict self !! L = Some e →
         ∃ e', level_dict s' !! L = Some e' ∧ e ≤ e'.
Proof.
  induction fs as [| f fs IH]; intros self s' rs E Hoff Hfs L e HL0 He.
  - injection E as <- <-. eauto with lia.
  - apply call_seq_cons in E as (s1 & r & rs' & E1 & E2 & ->).
    apply Forall_cons in Hfs as [Hf Hfs].
    pose proof (Level_call_effect _ _ _ _ _ _ _ E1) as [(_ & Ho & _) _].
    destruct (Level_call_advance _ _ _ _ _ _ _ E1 Hoff Hf L e HL0 He)
      as (e1 & He1 & Hle1).
    destruct (IH s1 s' rs' E2 ltac:(lia) Hfs L e1 HL0 He1) as (e2 & He2 & Hle2).
    exists e2. split; [done | lia].
Qed.

(** C8 (amended).  Over one call, and so over any sequence of calls on
    the same engine, no key leaves the level map.  With [offset ≥ 0] and
    features whose end is not before their start, as the data model has
    them, the recorded end of a level other than 0 never decreases.
    Level 0 is left out: each unstranded feature overwrites its recorded
    end, which may go down. *)
Theorem C8_level_map_grows :
  (∀ self ID0 start0 end0 strand s' r,
     Level_call self ID0 start0 end0 strand = Ok (s', r) →
     (∀ L, is_Some (level_dict self !! L) → is_Some (level_dict s' !! L)) ∧
     (0 ≤ offset self → start0 ≤ end0 →
      ∀ L e, L ≠ 0 → level_dict self !! L = Some e →
             ∃ e', level_dict s' !! L = Some e' ∧ e ≤ e')) ∧
  (∀ self fs s' rs,
     call_seq self fs = Ok (s', rs) →
     (∀ L, is_Some (level_dict self !! L) → is_Some (level_dict s' !! L)) ∧
     (0 ≤ offset self → Forall (λ f, f_start f ≤ f_end f) fs →
      ∀ L e, L ≠ 0 → level_dict self !! L = Some e →
             ∃ e', level_dict s' !! L = Some e' ∧ e ≤ e')).
Proof.
  split.
  - intros self ID0 start0 end0 strand s' r E. split.
    + intros L HL.
      pose proof (Level_call_effect _ _ _ _ _ _ _ E) as [_ D]. rewrite D.
      destruct r as [ef |]; [| done].
      destruct (decide (level ef = L)) as [-> | ?].
      * rewrite lookup_insert_eq. eauto.
      * by rewrite lookup_insert_ne.
    + by eapply Level_call_advance.
  - intros self fs s' rs E. split.
    + by apply call_seq_effect in E as (_ & _ & K & _).
    + by eapply call_seq_advance.
Qed.

(** Scenario 1: C(200,250) reuses level 1, whose recorded end was 100. *)
Lemma C8_level_map_grows_witness :
  ∃ e', e' = 250 ∧ 100 ≤ e'.
Proof.
  pose (s1 := set_level (entered engine2 "positive_features") 1 100).
  pose (s2 := set_level (entered s1 "positive_features") 1 250).
  assert (E : Level_call s1 "C" 200 250 "+" =
              Ok (s2, Some (mk_enhanced_feature "C" 200 250
                              (pos_arrowstyle engine2) 1)))
    by (vm_compute; reflexivity).
  assert (Hoff : 0 ≤ offset s1) by (vm_compute; discriminate).
  assert (Hse : 200 ≤ 250) by lia.
  assert (HL : 1 ≠ 0) by lia.
  assert (He : level_dict s1 !! 1 = Some 100) by (vm_compute; reflexivity).
  destruct (proj2 (proj1 C8_level_map_grows _ _ _ _ _ _ _ E) Hoff Hse 1 100 HL He)
    as (e' & He' & Hle).
  exists e'. split; [| exact Hle].
  assert (H250 : level_dict s2 !! 1 = Some 250) by (vm_compute; reflexivity).
  rewrite H250 in He'. by injection He'.
Defined.

(** C9. Totality.  Whatever the state of the engine and the arguments,
    a call raises nothing: it returns either a feature or [None]. *)
Theorem C9_never_raises self ID0 start0 end0 strand :
  (∀ e, Level_call self ID0 start0 end0 strand ≠ Raise e) ∧
  ∃ s', (∃ ef, Level_call self ID0 start0 end0 strand = Ok (s', Some ef)) ∨
        Level_call self ID0 start0 end0 strand = Ok (s', None).
Proof.
  destruct (Level_call_returns self ID0 start0 end0 strand) as (s' & r & E).
  split.
  - intros e. rewrite E. discriminate.
  - exists s'. destruct r as [ef |]; [left; by exists ef | by right].
Qed.

(** C10. Pass-through.  A returned feature carries the [ID], [start] and
    [end] arguments of the call unchanged. *)
Theorem C10_fields_pass_through self ID0 start0 end0 strand s' ef :
  Level_call self ID0 start0 end0 strand = Ok (s', Some ef) →
  ID ef = ID0 ∧ start ef = start0 ∧ end_ ef = end0.
Proof.
  intros E. apply Level_call_Some in E as (H1 & H2 & H3 & _). done.
Qed.

Lemma C10_fields_pass_through_witness :
  ID (mk_enhanced_feature "B" 90 150 (pos_arrowstyle engine2) 2) = "B" ∧
  start (mk_enhanced_feature "B" 90 150 (pos_arrowstyle engine2) 2) = 90 ∧
  end_ (mk_enhanced_feature "B" 90 150 (pos_arrowstyle engine2) 2) = 150.
Proof.
  exact (C10_fields_pass_through
           (set_level (entered engine2 "positive_features") 1 100)
           "B" 90 150 "+"
           (set_level (entered (set_level (entered engine2 "positive_features")
                                  1 100) "positive_features") 2 150)
           (mk_enhanced_feature "B" 90 150 (pos_arrowstyle engine2) 2)
           eq_refl).
Defined.

(** * The read-only properties: [min_level], [max_level], [n_level] *)

Lemma elem_of_dict_keys (d : gmap Z Z) k : k ∈ dict_keys d ↔ is_Some (d !! k).
Proof.
  unfold dict_keys. rewrite list_elem_of_fmap. split.
  - intros ([k' v] & -> & Hin). apply elem_of_map_to_list in Hin. eauto.
  - intros [v Hv]. exists (k, v). split; [done |]. by apply elem_of_map_to_list.
Qed.

Lemma dict_keys_nil (d : gmap Z Z) : dict_keys d = [] ↔ d = ∅.
Proof.
  unfold dict_keys. split.
  - intros H. apply fmap_nil_inv in H. by apply map_to_list_empty_iff.
  - intros ->. by rewrite map_to_list_empty.
Qed.

Lemma foldl_min_spec xs : ∀ x,
  (foldl Z.min x xs = x ∨ foldl Z.min x xs ∈ xs) ∧
  foldl Z.min x xs ≤ x ∧ ∀ y, y ∈ xs → foldl Z.min x xs ≤ y.
Proof.
  induction xs as [| a xs IH]; intros x; simpl.
  - split_and!; [by left | lia |]. intros y Hy. by apply elem_of_nil in Hy.
  - destruct (IH (Z.min x a)) as ([He | Hin] & Hle & Hall).
    + split_and!.
      * rewrite He. destruct (Z.min_spec x a) as [[_ ->] | [_ ->]];
          [by left | right; by left].
      * lia.
      * intros y Hy. apply elem_of_cons in Hy as [-> | Hy]; [lia | by apply Hall].
    + split_and!.
      * right. by right.
      * lia.
      * intros y Hy. apply elem_of_cons in Hy as [-> | Hy]; [lia | by apply Hall].
Qed.

Lemma foldl_max_spec xs : ∀ x,
  (foldl Z.max x xs = x ∨ foldl Z.max x xs ∈ xs) ∧
  x ≤ foldl Z.max x xs ∧ ∀ y, y ∈ xs → y ≤ foldl Z.max x xs.
Proof.
  induction xs as [| a xs IH]; intros x; simpl.
  - split_and!; [by left | lia |]. intros y Hy. by apply elem_of_nil in Hy.
  - destruct (IH (Z.max x a)) as ([He | Hin] & Hle & Hall).
    + split_and!.
      * rewrite He. destruct (Z.max_spec x a) as [[_ ->] | [_ ->]];
          [right; by left | by left].
      * lia.
      * intros y Hy. apply elem_of_cons in Hy as [-> | Hy]; [lia | by apply Hall].
    + split_and!.
      * right. by right.
      * lia.
      * intros y Hy. apply elem_of_cons in Hy as [-> | Hy]; [lia | by apply Hall].
Qed.

Lemma py_min_spec xs m :
  py_min xs = Some m ↔ m ∈ xs ∧ ∀ y, y ∈ xs → m ≤ y.
Proof.
  destruct xs as [| x xs]; simpl.
  - split; [done |]. intros [H _]. by apply elem_of_nil in H.
  - destruct (foldl_min_spec xs x) as (Hin & Hle & Hall). split.
    + intros [= <-]. split.
      * destruct Hin as [-> | Hin]; [by left | by right].
      * intros y Hy. apply elem_of_cons in Hy as [-> | Hy]; [done | by apply Hall].
    + intros [Hm Hlow]. f_equal. apply Z.le_antisymm.
      * apply elem_of_cons in Hm as [-> | Hm]; [done | by apply Hall].
      * apply Hlow. destruct Hin as [-> | Hin]; [by left | by right].
Qed.

Lemma py_max_spec xs m :
  py_max xs = Some m ↔ m ∈ xs ∧ ∀ y, y ∈ xs → y ≤ m.
Proof.
  destruct xs as [| x xs]; simpl.
  - split; [done |]. intros [H _]. by apply elem_of_nil in H.
  - destruct (foldl_max_spec xs x) as (Hin & Hle & Hall). split.
    + intros [= <-]. split.
      * destruct Hin as [-> | Hin]; [by left | by right].
      * intros y Hy. apply elem_of_cons in Hy as [-> | Hy]; [done | by apply Hall].
    + intros [Hm Hup]. f_equal. apply Z.le_antisymm.
      * apply Hup. destruct Hin as [-> | Hin]; [by left | by right].
      * apply elem_of_cons in Hm as [-> | Hm]; [done | by apply Hall].
Qed.

Lemma min_level_spec self :
  (min_level self = None ↔ level_dict self = ∅) ∧
  ∀ m, min_level self = Some m ↔
       is_Some (level_dict self !! m) ∧
       ∀ L, is_Some (level_dict self !! L) → m ≤ L.
Proof.
  unfold min_level. split.
  - rewrite <- dict_keys_nil. destruct (dict_keys (level_dict self)); by split.
  - intros m. rewrite py_min_spec, elem_of_dict_keys.
    split; intros [H1 H2]; (split; [done |]); intros L HL; apply H2;
      by apply elem_of_dict_keys.
Qed.

Lemma max_level_spec self :
  (max_level self = None ↔ level_dict self = ∅) ∧
  ∀ m, max_level self = Some m ↔
       is_Some (level_dict self !! m) ∧
       ∀ L, is_Some (level_dict self !! L) → L ≤ m.
Proof.
  unfold max_level. split.
  - rewrite <- dict_keys_nil. destruct (dict_keys (level_dict self)); by split.
  - intros m. rewrite py_max_spec, elem_of_dict_keys.
    split; intros [H1 H2]; (split; [done |]); intros L HL; apply H2;
      by apply elem_of_dict_keys.
Qed.

(** X1. [min_level] raises exactly when no level has been used yet;
    otherwise it is the least key of the level map. *)
Theorem X1_min_level_least_key self :
  (min_level self = None ↔ level_dict self = ∅) ∧
  ∀ m, min_level self = Some m ↔
       is_Some (level_dict self !! m) ∧
       ∀ L, is_Some (level_dict self !! L) → m ≤ L.
Proof. exact (min_level_spec self). Qed.

(** X2. [max_level] raises exactly when no level has been used yet;
    otherwise it is the greatest key of the level map. *)
Theorem X2_max_level_greatest_key self :
  (max_level self = None ↔ level_dict self = ∅) ∧
  ∀ m, max_level self = Some m ↔
       is_Some (level_dict self !! m) ∧
       ∀ L, is_Some (level_dict self !! L) → L ≤ m.
Proof. exact (max_level_spec self). Qed.

Example min_max_fresh :
  min_level Level_default = None ∧ max_level Level_default = None ∧
  n_level Level_default = 0.
Proof. by vm_compute. Qed.

(** The keys of the level map after a call: those before it and the
    level that was returned. *)
Lemma Level_call_keys self ID0 start0 end0 strand s' r L :
  Level_call self ID0 start0 end0 strand = Ok (s', r) →
  is_Some (level_dict s' !! L) ↔
  is_Some (level_dict self !! L) ∨ ∃ ef, r = Some ef ∧ level ef = L.
Proof.
  intros E. apply Level_call_effect in E as [_ ->].
  destruct r as [ef |].
  - destruct (decide (level ef = L)) as [<- | Hne].
    + rewrite lookup_insert_eq. split; [right; eauto | eauto].
    + rewrite lookup_insert_ne by done. split; [by left |].
      intros [H | (ef' & [= <-] & H)]; [done | congruence].
  - split; [by left |]. intros [H | (ef' & H & _)]; [done | discriminate H].
Qed.

(** X3. [n_level] after a call: one more when the call returned a level
    that was not in use before, unchanged otherwise (in particular when
    the feature was dropped).  It never goes down. *)
Theorem X3_n_level_step self ID0 start0 end0 strand :
  ∃ s' r, Level_call self ID0 start0 end0 strand = Ok (s', r) ∧
    n_level s' =
      n_level self +
      match r with
      | Some ef => if decide (is_Some (level_dict self !! level ef)) then 0 else 1
      | None => 0
      end.
Proof.
  destruct (Level_call_returns self ID0 start0 end0 strand) as (s' & r & E).
  exists s', r. split; [done |].
  apply Level_call_effect in E as [_ D]. unfold n_level. rewrite D.
  destruct r as [ef |]; [| lia].
  rewrite map_size_insert. case_decide as HS.
  - destruct HS as [e ->]. simpl. lia.
  - destruct (level_dict self !! level ef) eqn:El; [exfalso; eauto |]. lia.
Qed.

(** One call keeps the keys inside the three pools. *)
Lemma Level_call_in_pools self ID0 start0 end0 strand s' r :
  Level_call self ID0 start0 end0 strand = Ok (s', r) →
  (∀ L, is_Some (level_dict self !! L) → in_pools (max_depth self) L) →
  ∀ L, is_Some (level_dict s' !! L) → in_pools (max_depth self) L.
Proof.
  intros E Inv L HL.
  apply (Level_call_keys _ _ _ _ _ _ _ L E) in HL as [HL | (ef & -> & <-)];
    [by apply Inv |].
  apply Level_call_Some in E as (_ & _ & _ & Hb). unfold in_pools.
  destruct Hb as [(_ & H & _) | [(_ & H & _) | (_ & H & _)]]; auto.
Qed.

(** One call keeps the used levels free of gaps: a level is reached only
    after every level before it in the scan was found occupied. *)
Lemma Level_call_no_gaps self ID0 start0 end0 strand s' r :
  Level_call self ID0 start0 end0 strand = Ok (s', r) →
  no_gaps (level_dict self) → no_gaps (level_dict s').
Proof.
  intros E Inv L HL L' HL'.
  pose proof (Level_call_keys _ _ _ _ _ _ _ L E) as KL.
  pose proof (Level_call_keys _ _ _ _ _ _ _ L' E) as KL'.
  apply KL in HL as [HL | (ef & -> & <-)].
  { apply KL'. left. by apply (Inv L). }
  destruct (decide (L' = level ef)) as [-> | Hne]; [apply KL'; right; eauto |].
  apply KL'. left.
  pose proof (Level_call_outcome self ID0 start0 end0 strand) as O.
  rewrite E in O.
  assert (Hocc : ∀ K, ¬ eligible self start0 K → is_Some (level_dict self !! K)).
  { intros K HK. unfold eligible in HK.
    destruct (level_dict self !! K); [eauto | tauto]. }
  inversion O; subst; simpl in *; apply Hocc.
  - match goal with H : ∀ K, 1 ≤ K < _ → _ |- _ => apply H end. lia.
  - match goal with H : ∀ K, _ < K ≤ -1 → _ |- _ => apply H end. lia.
  - lia.
Qed.

Lemma call_seq_invariants fs : ∀ self s' rs,
  call_seq self fs = Ok (s', rs) →
  ((∀ L, is_Some (level_dict self !! L) → in_pools (max_depth self) L) →
   ∀ L, is_Some (level_dict s' !! L) → in_pools (max_depth self) L) ∧
  (no_gaps (level_dict self) → no_gaps (level_dict s')).
Proof.
  induction fs as [| f fs IH]; intros self s' rs E.
  - by injection E as <- <-.
  - apply call_seq_cons in E as (s1 & r & rs' & E1 & E2 & ->).
    pose proof (Level_call_effect _ _ _ _ _ _ _ E1) as [(Hmd & _) _].
    destruct (IH _ _ _ E2) as [IP IG]. rewrite Hmd in IP. split.
    + intros Inv. apply IP. by eapply Level_call_in_pools.
    + intros Inv. apply IG. by eapply Level_call_no_gaps.
Qed.

(** X4. Keys stay in the pools.  On an engine built by [__init__], after
    any sequence of calls, every key of the level map is 0 or lies in
    [1..max_depth] or in [-max_depth..-1]; so do [min_level] and
    [max_level] whenever they return. *)
Theorem X4_keys_in_pools max_depth0 offset0 fp fn fu fs :
  ∃ s' rs, call_seq (Level_init max_depth0 offset0 fp fn fu) fs = Ok (s', rs) ∧
    (∀ L, is_Some (level_dict s' !! L) → in_pools max_depth0 L) ∧
    (∀ m, min_level s' = Some m → in_pools max_depth0 m) ∧
    (∀ m, max_level s' = Some m → in_pools max_depth0 m).
Proof.
  destruct (call_seq_returns fs (Level_init max_depth0 offset0 fp fn fu))
    as (s' & rs & E).
  exists s', rs. split; [done |].
  assert (K : ∀ L, is_Some (level_dict s' !! L) → in_pools max_depth0 L).
  { apply (proj1 (call_seq_invariants _ _ _ _ E)).
    intros L [e He]. simpl in He. by rewrite lookup_empty in He. }
  split_and!; [done | |].
  - intros m Hm. apply K. by apply min_level_spec in Hm as [? _].
  - intros m Hm. apply K. by apply max_level_spec in Hm as [? _].
Qed.

(** X5. No gaps.  On an engine built by [__init__], after any sequence
    of calls, the used levels are contiguous on each side of the
    baseline: every level from [min_level] to [max_level] other than 0
    is a key of the level map. *)
Theorem X5_levels_contiguous max_depth0 offset0 fp fn fu fs :
  ∃ s' rs, call_seq (Level_init max_depth0 offset0 fp fn fu) fs = Ok (s', rs) ∧
    no_gaps (level_dict s') ∧
    ∀ m M, min_level s' = Some m → max_level s' = Some M →
           ∀ L, m ≤ L ≤ M → L ≠ 0 → is_Some (level_dict s' !! L).
Proof.
  destruct (call_seq_returns fs (Level_init max_depth0 offset0 fp fn fu))
    as (s' & rs & E).
  exists s', rs. split; [done |].
  assert (G : no_gaps (level_dict s')).
  { apply (proj2 (call_seq_invariants _ _ _ _ E)).
    intros L [e He]. simpl in He. by rewrite lookup_empty in He. }
  split; [done |].
  intros m M Hm HM L HL HL0.
  apply min_level_spec in Hm as [Km _]. apply max_level_spec in HM as [KM _].
  destruct (decide (1 ≤ L)).
  - apply (G M KM). left. lia.
  - apply (G m Km). right. lia.
Qed.

(** A level map whose keys are in the pools of depth [md] has at most
    [2 * md + 1] keys (one key at most when [md] is not positive). *)
Lemma size_in_pools (m : gmap Z Z) md :
  (∀ L, is_Some (m !! L) → in_pools md L) →
  Z.of_nat (size m) ≤ 2 * Z.max md 0 + 1.
Proof.
  intros K. rewrite <- size_dom.
  pose (l := seqZ (- Z.max md 0) (2 * Z.max md 0 + 1)).
  assert (Hsub : dom m ⊆ list_to_set (C := gset Z) l).
  { intros L HL. apply elem_of_dom in HL. apply K in HL.
    apply elem_of_list_to_set. unfold l. apply elem_of_seqZ.
    unfold in_pools in HL. lia. }
  apply subseteq_size in Hsub.
  rewrite size_list_to_set in Hsub by apply NoDup_seqZ.
  unfold l in Hsub. rewrite length_seqZ in Hsub. lia.
Qed.

(** X6. Bound on [n_level].  On an engine built by [__init__] with
    [max_depth ≥ 0], after any sequence of calls, [n_level] is at most
    [2 * max_depth + 1]; when unstranded features are filtered (the
    default), level 0 is never used. *)
Theorem X6_n_level_bound max_depth0 offset0 fp fn fu fs :
  0 ≤ max_depth0 →
  ∃ s' rs, call_seq (Level_init max_depth0 offset0 fp fn fu) fs = Ok (s', rs) ∧
    0 ≤ n_level s' ≤ 2 * max_depth0 + 1 ∧
    (fu = true → level_dict s' !! 0 = None).
Proof.
  intros Hmd.
  destruct (call_seq_returns fs (Level_init max_depth0 offset0 fp fn fu))
    as (s' & rs & E).
  exists s', rs. split; [done |]. split.
  - assert (K : ∀ L, is_Some (level_dict s' !! L) → in_pools max_depth0 L).
    { apply (proj1 (call_seq_invariants _ _ _ _ E)).
      intros L [e He]. simpl in He. by rewrite lookup_empty in He. }
    apply size_in_pools in K. unfold n_level. lia.
  - intros ->.
    assert (Gen : ∀ fs self s' rs, call_seq self fs = Ok (s', rs) →
              filter_unstrand self = true → level_dict self !! 0 = None →
              level_dict s' !! 0 = None).
    { clear. induction fs as [| f fs IH]; intros self s' rs E Hf H0.
      - by injection E as <- <-.
      - apply call_seq_cons in E as (s1 & r & rs' & E1 & E2 & ->).
        pose proof (Level_call_effect _ _ _ _ _ _ _ E1) as [C D].
        apply (IH _ _ _ E2).
        + destruct C as (_ & _ & _ & _ & _ & _ & _ & ->). done.
        + rewrite D. destruct r as [ef |]; [| done].
          apply Level_call_Some in E1 as (_ & _ & _ & Hb).
          rewrite lookup_insert_ne; [done |].
          destruct Hb as [(_ & H & _) | [(_ & H & _) | ([_ Hu] & _)]];
            [lia | lia | congruence]. }
    by apply (Gen _ _ _ _ E).
Qed.

Lemma X6_n_level_bound_witness :
  0 ≤ 2 ∧
  ∃ s' rs, call_seq (Level_init 2 10 false false true)
             [mk_feature "A" 0 100 "+"; mk_feature "m" 5 9 "-";
              mk_feature "u" 7 8 "."] = Ok (s', rs) ∧
           0 ≤ n_level s' ≤ 2 * 2 + 1.
Proof.
  assert (H : 0 ≤ 2) by lia.
  split; [exact H |].
  destruct (X6_n_level_bound 2 10 false false true
              [mk_feature "A" 0 100 "+"; mk_feature "m" 5 9 "-";
               mk_feature "u" 7 8 "."] H) as (s' & rs & E & Hn & _).
  exists s', rs. split; [exact E | exact Hn].
Defined.

(** * Rows never overlap *)

(** X7. No overlap on a row.  With [offset ≥ 0] and features whose end
    is not before their start, any two features returned on the same
    level other than 0, however many calls apart (and whatever the order
    of the starts), are more than [offset] apart: the later one starts
    after the end of the earlier one plus [offset]. *)
Theorem X7_same_level_no_overlap s f1 s1 ef1 mid s2 rs f2 s3 ef2 :
  0 ≤ offset s →
  Forall (λ f, f_start f ≤ f_end f) mid →
  call_feature s f1 = Ok (s1, Some ef1) →
  call_seq s1 mid = Ok (s2, rs) →
  call_feature s2 f2 = Ok (s3, Some ef2) →
  level ef1 = level ef2 →
  level ef2 ≠ 0 →
  f_end f1 + offset s < f_start f2.
Proof.
  intros Hoff Hmid E1 Emid E2 HL Hnz.
  pose proof (Level_call_effect _ _ _ _ _ _ _ E1) as [C1 D1].
  simpl in D1. rewrite HL in D1.
  assert (Ho1 : offset s1 = offset s) by (by destruct C1 as (_ & -> & _)).
  assert (Hin : level_dict s1 !! level ef2 = Some (f_end f1))
    by (rewrite D1; apply lookup_insert_eq).
  destruct (call_seq_advance _ _ _ _ Emid ltac:(lia) Hmid _ _ Hnz Hin)
    as (e & He & Hle).
  apply call_seq_effect in Emid as (Cm & _).
  assert (Ho2 : offset s2 = offset s1) by (by destruct Cm as (_ & -> & _)).
  apply Level_call_Some in E2 as (_ & _ & _ & Hb).
  assert (Hel : eligible s2 (f_start f2) (level ef2)).
  { destruct Hb as [(_ & _ & H & _) | [(_ & _ & H & _) | (_ & H & _)]]; done. }
  unfold eligible in Hel. rewrite He in Hel. lia.
Qed.

(** Scenario 1, with a feature in between that starts before A. *)
Lemma X7_same_level_no_overlap_witness : 100 + 10 < 200.
Proof.
  pose (fA := mk_feature "A" 0 100 "+").
  pose (fB := mk_feature "B" 90 150 "+").
  pose (fC := mk_feature "C" 200 250 "+").
  pose (efA := mk_enhanced_feature "A" 0 100 (pos_arrowstyle engine2) 1).
  pose (efB := mk_enhanced_feature "B" 90 150 (pos_arrowstyle engine2) 2).
  pose (efC := mk_enhanced_feature "C" 200 250 (pos_arrowstyle engine2) 1).
  pose (s1 := set_level (entered engine2 "positive_features") 1 100).
  pose (s2 := set_level (entered s1 "positive_features") 2 150).
  pose (s3 := set_level (entered s2 "positive_features") 1 250).
  assert (Hoff : 0 ≤ offset engine2) by (simpl; lia).
  assert (Hmid : Forall (λ f, f_start f ≤ f_end f) [fB])
    by (constructor; [simpl; lia | constructor]).
  assert (E1 : call_feature engine2 fA = Ok (s1, Some efA))
    by (vm_compute; reflexivity).
  assert (Em : call_seq s1 [fB] = Ok (s2, [Some efB]))
    by (vm_compute; reflexivity).
  assert (E2 : call_feature s2 fC = Ok (s3, Some efC))
    by (vm_compute; reflexivity).
  assert (HL : level efA = level efC) by reflexivity.
  assert (Hnz : level efC ≠ 0) by (simpl; lia).
  exact (X7_same_level_no_overlap engine2 fA s1 efA [fB] s2 [Some efB] fC s3 efC
           Hoff Hmid E1 Em E2 HL Hnz).
Defined.

(** * The three pools are independent *)

(** Two engines agree on a range of levels. *)
Lemma eligible_agree s t start0 L :
  offset s = offset t → level_dict s !! L = level_dict t !! L →
  (eligible s start0 L ↔ eligible t start0 L).
Proof. unfold eligible. intros -> ->. done. Qed.

Lemma pos_loop_agree a b ID0 start0 end0 lvl sa ra sb rb :
  max_depth a = max_depth b → offset a = offset b →
  pos_arrowstyle a = pos_arrowstyle b →
  (∀ L, lvl ≤ L ≤ max_depth a → level_dict a !! L = level_dict b !! L) →
  pos_loop a ID0 start0 end0 lvl = Ok (sa, ra) →
  pos_loop b ID0 start0 end0 lvl = Ok (sb, rb) →
  ra = rb.
Proof.
  intros Hmd Hoff Hsty Agree Ea Eb.
  assert (Hel : ∀ L, lvl ≤ L ≤ max_depth a →
            eligible a start0 L ↔ eligible b start0 L).
  { intros L HL. apply eligible_agree; [done | by apply Agree]. }
  destruct (pos_loop_spec a ID0 start0 end0 lvl)
    as [(La & HLa & Hea & Hmina & Ea') | [Hnoa Ea']];
    rewrite Ea in Ea'; injection Ea' as -> ->;
  destruct (pos_loop_spec b ID0 start0 end0 lvl)
    as [(Lb & HLb & Heb & Hminb & Eb') | [Hnob Eb']];
    rewrite Eb in Eb'; injection Eb' as -> ->;
    rewrite <- ?Hmd in *.
  - destruct (Z.lt_trichotomy La Lb) as [Hlt | [-> | Hlt]].
    + exfalso. apply (Hminb La); [lia |]. apply Hel; [lia | done].
    + by rewrite Hsty.
    + exfalso. apply (Hmina Lb); [lia |]. apply Hel; [lia | done].
  - exfalso. apply (Hnob La); [lia |]. apply Hel; [lia | done].
  - exfalso. apply (Hnoa Lb); [lia |]. apply Hel; [lia | done].
  - done.
Qed.

Lemma neg_loop_agree a b ID0 start0 end0 lvl sa ra sb rb :
  max_depth a = max_depth b → offset a = offset b →
  neg_arrowstyle a = neg_arrowstyle b →
  (∀ L, - max_depth a ≤ L ≤ lvl → level_dict a !! L = level_dict b !! L) →
  neg_loop a ID0 start0 end0 lvl = Ok (sa, ra) →
  neg_loop b ID0 start0 end0 lvl = Ok (sb, rb) →
  ra = rb.
Proof.
  intros Hmd Hoff Hsty Agree Ea Eb.
  assert (Hel : ∀ L, - max_depth a ≤ L ≤ lvl →
            eligible a start0 L ↔ eligible b start0 L).
  { intros L HL. apply eligible_agree; [done | by apply Agree]. }
  destruct (neg_loop_spec a ID0 start0 end0 lvl)
    as [(La & HLa & Hea & Hmina & Ea') | [Hnoa Ea']];
    rewrite Ea in Ea'; injection Ea' as -> ->;
  destruct (neg_loop_spec b ID0 start0 end0 lvl)
    as [(Lb & HLb & Heb & Hminb & Eb') | [Hnob Eb']];
    rewrite Eb in Eb'; injection Eb' as -> ->;
    rewrite <- ?Hmd in *.
  - destruct (Z.lt_trichotomy La Lb) as [Hlt | [-> | Hlt]].
    + exfalso. apply (Hmina Lb); [lia |]. apply Hel; [lia | done].
    + by rewrite Hsty.
    + exfalso. apply (Hminb La); [lia |]. apply Hel; [lia | done].
  - exfalso. apply (Hnob La); [lia |]. apply Hel; [lia | done].
  - exfalso. apply (Hnoa Lb); [lia |]. apply Hel; [lia | done].
  - done.
Qed.

(** X8. Independent pools.  A call on the positive strand reads and
    writes positive levels only: it leaves every level [L ≤ 0] as it
    was, and on two engines with the same configuration whose level maps
    agree on the levels [1..max_depth] it returns the same value.
    Likewise for the negative strand and the levels [-max_depth..-1]. *)
Theorem X8_pools_independent s t ID0 start0 end0 strand s' t' r r' :
  same_config s t →
  Level_call s ID0 start0 end0 strand = Ok (s', r) →
  Level_call t ID0 start0 end0 strand = Ok (t', r') →
  (enters_pos s strand →
     (∀ L, L ≤ 0 → level_dict s' !! L = level_dict s !! L) ∧
     ((∀ L, 1 ≤ L ≤ max_depth s → level_dict s !! L = level_dict t !! L) →
      r = r')) ∧
  (enters_neg s strand →
     (∀ L, 0 ≤ L → level_dict s' !! L = level_dict s !! L) ∧
     ((∀ L, - max_depth s ≤ L ≤ -1 → level_dict s !! L = level_dict t !! L) →
      r = r')).
Proof.
  intros C Es Et.
  pose proof (enters_same_config _ _ strand C) as (Pt & Nt & _).
  destruct C as (Cmd & Coff & Cp & Cn & _).
  pose proof (Level_call_effect _ _ _ _ _ _ _ Es) as [_ Ds].
  split; intros Hb.
  - split.
    + intros L HL. rewrite Ds. destruct r as [ef |]; [| done].
      apply Level_call_Some in Es as (_ & _ & _ & Hc).
      pose proof (enters_exclusive s strand) as (Xp & _ & _).
      destruct (Xp Hb) as [Hn Hu].
      destruct Hc as [(_ & H & _) | [(H & _) | (H & _)]]; try tauto.
      by rewrite lookup_insert_ne by lia.
    + intros Agree.
      rewrite (Level_call_pos _ _ _ _ _ Hb) in Es.
      rewrite (Level_call_pos _ _ _ _ _ (proj2 Pt Hb)) in Et.
      eapply (pos_loop_agree _ _ _ _ _ _ _ _ _ _ _ _ _ _ Es Et).
  - split.
    + intros L HL. rewrite Ds. destruct r as [ef |]; [| done].
      apply Level_call_Some in Es as (_ & _ & _ & Hc).
      pose proof (enters_exclusive s strand) as (_ & Xn & _).
      destruct (Xn Hb) as [Hp Hu].
      destruct Hc as [(H & _) | [(_ & H & _) | (H & _)]]; try tauto.
      by rewrite lookup_insert_ne by lia.
    + intros Agree.
      rewrite (Level_call_neg _ _ _ _ _ Hb) in Es.
      rewrite (Level_call_neg _ _ _ _ _ (proj2 Nt Hb)) in Et.
      eapply (neg_loop_agree _ _ _ _ _ _ _ _ _ _ _ _ _ _ Es Et).
  Unshelve. all: simpl; try done; try (symmetry; done).
Qed.

(** A feature on the positive strand after one on the negative strand:
    level -1 is untouched, and a fresh engine returns the same value. *)
Lemma X8_pools_independent_witness :
  level_dict (set_level (entered (set_level (entered engine2 "negative_features")
                (-1) 9) "positive_features") 1 100) !! (-1) = Some 9.
Proof.
  pose (s := set_level (entered engine2 "negative_features") (-1) 9).
  pose (s' := set_level (entered s "positive_features") 1 100).
  pose (t' := set_level (entered engine2 "positive_features") 1 100).
  pose (efA := mk_enhanced_feature "A" 0 100 (pos_arrowstyle engine2) 1).
  assert (C : same_config s engine2) by (unfold same_config; done).
  assert (Es : Level_call s "A" 0 100 "+" = Ok (s', Some efA))
    by (vm_compute; reflexivity).
  assert (Et : Level_call engine2 "A" 0 100 "+" = Ok (t', Some efA))
    by (vm_compute; reflexivity).
  assert (Hb : enters_pos s "+") by (split; reflexivity).
  assert (Hs : level_dict s !! (-1) = Some 9) by (vm_compute; reflexivity).
  rewrite <- Hs.
  apply (proj1 (proj1 (X8_pools_independent s engine2 "A" 0 100 "+"
                         s' t' (Some efA) (Some efA) C Es Et) Hb)).
  lia.
Defined.

(** * [min_level], [max_level] and [n_level] along the calls *)

Lemma min_max_of_key self L :
  is_Some (level_dict self !! L) →
  ∃ m M, min_level self = Some m ∧ max_level self = Some M ∧ m ≤ L ≤ M.
Proof.
  intros HL.
  assert (Hne : level_dict self ≠ ∅).
  { intros He. rewrite He, lookup_empty in HL. by destruct HL. }
  destruct (min_level self) as [m |] eqn:Em;
    [| by apply min_level_spec in Em].
  destruct (max_level self) as [M |] eqn:EM;
    [| by apply max_level_spec in EM].
  exists m, M. split_and!; [done | done | |].
  - apply min_level_spec in Em as [_ H]. by apply H.
  - apply max_level_spec in EM as [_ H]. by apply H.
Qed.

(** X9. Once a call has returned a feature, [min_level] and [max_level]
    no longer raise, at any later time on that engine, and they bracket
    the level that was returned. *)
Theorem X9_min_max_after_assignment s ID0 start0 end0 strand s1 ef fs s2 rs :
  Level_call s ID0 start0 end0 strand = Ok (s1, Some ef) →
  call_seq s1 fs = Ok (s2, rs) →
  ∃ m M, min_level s2 = Some m ∧ max_level s2 = Some M ∧ m ≤ level ef ≤ M.
Proof.
  intros E1 E2. apply min_max_of_key.
  apply call_seq_effect in E2 as (_ & _ & K & _). apply K.
  apply (Level_call_keys _ _ _ _ _ _ _ (level ef) E1). right. eauto.
Qed.

Lemma X9_min_max_after_assignment_witness :
  ∃ m M, m ≤ 1 ≤ M.
Proof.
  pose (s1 := set_level (entered engine2 "positive_features") 1 100).
  pose (s2 := set_level (entered s1 "negative_features") (-1) 9).
  pose (efA := mk_enhanced_feature "A" 0 100 (pos_arrowstyle engine2) 1).
  pose (efm := mk_enhanced_feature "m" 5 9 (neg_arrowstyle engine2) (-1)).
  assert (E1 : Level_call engine2 "A" 0 100 "+" = Ok (s1, Some efA))
    by (vm_compute; reflexivity).
  assert (E2 : call_seq s1 [mk_feature "m" 5 9 "-"] = Ok (s2, [Some efm]))
    by (vm_compute; reflexivity).
  destruct (X9_min_max_after_assignment _ _ _ _ _ _ _ _ _ _ E1 E2)
    as (m & M & _ & _ & H).
  exists m, M. exact H.
Defined.

(** X10. Along any sequence of calls [min_level] can only go down,
    [max_level] only up, and [n_level] only up. *)
Theorem X10_extent_monotone s fs :
  ∃ s' rs, call_seq s fs = Ok (s', rs) ∧
    (∀ m, min_level s = Some m → ∃ m', min_level s' = Some m' ∧ m' ≤ m) ∧
    (∀ M, max_level s = Some M → ∃ M', max_level s' = Some M' ∧ M ≤ M') ∧
    n_level s ≤ n_level s'.
Proof.
  destruct (call_seq_returns fs s) as (s' & rs & E).
  exists s', rs. split; [done |].
  apply call_seq_effect in E as (_ & _ & K & _).
  split_and!.
  - intros m Hm. apply min_level_spec in Hm as [Hk _].
    destruct (min_max_of_key s' m (K _ Hk)) as (m' & M' & ? & ? & ?).
    exists m'. split; [done | lia].
  - intros M HM. apply max_level_spec in HM as [Hk _].
    destruct (min_max_of_key s' M (K _ Hk)) as (m' & M' & ? & ? & ?).
    exists M'. split; [done | lia].
  - unfold n_level. rewrite <- !size_dom.
    apply inj_le, subseteq_size. intros L HL.
    apply elem_of_dom. apply K. by apply elem_of_dom.
Qed.

(** * Where the recorded ends come from *)

(** After a sequence of calls, a recorded end is either the one that was
    there before or the end of a feature returned on that level. *)
Lemma call_seq_provenance fs : ∀ self s' rs,
  call_seq self fs = Ok (s', rs) →
  ∀ L e, level_dict s' !! L = Some e →
         level_dict self !! L = Some e ∨
         ∃ ef, Some ef ∈ rs ∧ level ef = L ∧ end_ ef = e.
Proof.
  induction fs as [| f fs IH]; intros self s' rs E L e He.
  - injection E as <- <-. by left.
  - apply call_seq_cons in E as (s1 & r & rs' & E1 & E2 & ->).
    destruct (IH _ _ _ E2 L e He) as [H1 | (ef & Hin & HL & Hend)].
    + pose proof (Level_call_effect _ _ _ _ _ _ _ E1) as [_ D].
      rewrite D in H1. destruct r as [ef |]; [| by left].
      destruct (decide (level ef = L)) as [HL | HL].
      * rewrite HL, lookup_insert_eq in H1. injection H1 as <-.
        apply Level_call_Some in E1 as (_ & _ & Hend & _).
        right. exists ef. split_and!; [by left | done | done].
      * rewrite lookup_insert_ne in H1 by done. by left.
    + right. exists ef. split_and!; [by right | done | done].
Qed.

(** X11. Rows are opened, and features dropped, only against earlier
    features.  On an engine built by [__init__], when a call returns
    level [L], every level strictly between the baseline and [L] holds
    an earlier returned feature whose end plus [offset] reaches the
    start of the new one; when a call on the positive (negative) strand
    returns [None], this is so for every level of [1..max_depth]
    ([-max_depth..-1]). *)
Theorem X11_blocked_by_earlier_features max_depth0 offset0 fp fn fu fs f :
  ∃ s rs s' r,
    call_seq (Level_init max_depth0 offset0 fp fn fu) fs = Ok (s, rs) ∧
    call_feature s f = Ok (s', r) ∧
    ∀ L',
      match r with
      | Some ef => 1 ≤ L' < level ef ∨ level ef < L' ≤ -1
      | None => (enters_pos s (f_strand f) ∧ 1 ≤ L' ≤ max_depth0) ∨
                (enters_neg s (f_strand f) ∧ - max_depth0 ≤ L' ≤ -1)
      end →
      ∃ ef', Some ef' ∈ rs ∧ level ef' = L' ∧
             f_start f ≤ end_ ef' + offset0.
Proof.
  destruct (call_seq_returns fs (Level_init max_depth0 offset0 fp fn fu))
    as (s & rs & E).
  destruct (Level_call_returns s (f_ID f) (f_start f) (f_end f) (f_strand f))
    as (s' & r & Ec).
  exists s, rs, s', r. split; [done |]. split; [done |].
  pose proof (call_seq_effect _ _ _ _ E) as ((Hmd & Hoff & _) & _).
  simpl in Hmd, Hoff.
  assert (Blocked : ∀ L', ¬ eligible s (f_start f) L' →
            ∃ ef', Some ef' ∈ rs ∧ level ef' = L' ∧
                   f_start f ≤ end_ ef' + offset0).
  { intros L' Hne. unfold eligible in Hne.
    destruct (level_dict s !! L') as [e |] eqn:He; [| tauto].
    destruct (call_seq_provenance _ _ _ _ E L' e He)
      as [H0 | (ef' & Hin & HL & Hend)].
    - simpl in H0. by rewrite lookup_empty in H0.
    - exists ef'. split_and!; [done | done |]. rewrite Hend. lia. }
  pose proof (Level_call_outcome s (f_ID f) (f_start f) (f_end f) (f_strand f))
    as O.
  rewrite Ec in O. pose proof (enters_exclusive s (f_strand f)) as (Xp & Xn & Xu).
  intros L' HL'. apply Blocked.
  inversion O; subst; simpl in HL'; rewrite ?Hmd in *.
  - match goal with H : ∀ K, 1 ≤ K < _ → _ |- _ => apply H end. lia.
  - match goal with H : ∀ K, 1 ≤ K ≤ _ → _ |- _ => apply H end.
    destruct HL' as [[_ ?] | [? _]]; [lia | tauto].
  - match goal with H : ∀ K, _ < K ≤ -1 → _ |- _ => apply H end. lia.
  - match goal with H : ∀ K, _ ≤ K ≤ -1 → _ |- _ => apply H end.
    destruct HL' as [[? _] | [_ ?]]; [tauto | lia].
  - lia.
  - tauto.
Qed.

(** * Identifier extraction *)

Example get_gff3_ID_example :
  get_gff3_ID (mk_line "gene" "ID=gene:G1;Name=abc;biotype=x") = "gene:G1".
Proof. reflexivity. Qed.

Example get_gtf_ID_example :
  get_gtf_ID (mk_line "transcript"
    (gtf_render [("gene_id", quoted "G1"); ("transcript_id", quoted "T7")]))
  = "T7".
Proof. reflexivity. Qed.

Example get_gtf_ID_unquoted :
  get_gtf_ID (mk_line "gene" "gene_id G1;") = "".
Proof. reflexivity. Qed.

(** ** Facts about [strip] and [split] *)

Lemma lstrip_id s : head_space s = false → lstrip s = s.
Proof. destruct s as [| c s]; simpl; [done |]. by intros ->. Qed.

Lemma rstrip_id s : last_space s = false → rstrip s = s.
Proof.
  induction s as [| c s IH]; simpl; [done |].
  destruct s as [| c' s'].
  - simpl. by intros ->.
  - intros H. rewrite (IH H). done.
Qed.

Lemma strip_id s : head_space s = false → last_space s = false → strip s = s.
Proof. intros H1 H2. unfold strip. rewrite (lstrip_id _ H1). by apply rstrip_id. Qed.

Lemma append_nonempty_r s t : t ≠ "" → s +:+ t ≠ "".
Proof. destruct s; simpl; [done | discriminate]. Qed.

Lemma last_space_app s t : t ≠ "" → last_space (s +:+ t) = last_space t.
Proof.
  intros Ht. induction s as [| c s IH]; [done |].
  change (String c s +:+ t) with (String c (s +:+ t)).
  pose proof (append_nonempty_r s t Ht) as Hne.
  simpl. destruct (s +:+ t) as [| c' u] eqn:E; [done | exact IH].
Qed.

Lemma occurs_app c s t : occurs c (s +:+ t) = occurs c s || occurs c t.
Proof.
  induction s as [| c' s IH]; simpl; [done |].
  rewrite IH. by rewrite orb_assoc.
Qed.

Lemma split_nonempty sep s : split sep s ≠ [].
Proof.
  destruct s as [| c s]; simpl; [done |].
  destruct (Ascii.eqb c sep); [done |]. by destruct (split sep s).
Qed.

Lemma split_none sep s : occurs sep s = false → split sep s = [s].
Proof.
  induction s as [| c s IH]; simpl; [done |].
  intros H. apply orb_false_iff in H as [Hc Hs].
  rewrite Hc, (IH Hs). done.
Qed.

Lemma split_app_sep sep k r :
  occurs sep k = false → split sep (k +:+ String sep r) = k :: split sep r.
Proof.
  induction k as [| c k IH]; simpl.
  - intros _. by rewrite Ascii.eqb_refl.
  - intros H. apply orb_false_iff in H as [Hc Hk].
    rewrite Hc, (IH Hk). done.
Qed.

(** The fields of [split] are free of the separator, and of every
    character the string is free of. *)
Lemma split_fields c sep s :
  (c = sep ∨ occurs c s = false) →
  Forall (λ f, occurs c f = false) (split sep s).
Proof.
  induction s as [| c' s IH]; intros H; simpl.
  - by repeat constructor.
  - destruct (Ascii.eqb c' sep) eqn:E.
    + apply Ascii.eqb_eq in E as ->. constructor; [done |]. apply IH.
      destruct H as [-> | H]; [by left |]. simpl in H.
      apply orb_false_iff in H as [_ H]. by right.
    + assert (Hc : Ascii.eqb c' c = false).
      { destruct H as [-> | H]; [done |]. simpl in H.
        by apply orb_false_iff in H as [H _]. }
      assert (IH' : Forall (λ f, occurs c f = false) (split sep s)).
      { apply IH. destruct H as [-> | H]; [by left |]. simpl in H.
        apply orb_false_iff in H as [_ H]. by right. }
      pose proof (split_nonempty sep s) as Hne.
      destruct (split sep s) as [| h t]; [done |].
      apply Forall_cons in IH' as [Hh Ht].
      constructor; [| done]. simpl. by rewrite Hc, Hh.
Qed.

Lemma occurs_lstrip c s : occurs c s = false → occurs c (lstrip s) = false.
Proof.
  induction s as [| c' s IH]; simpl; [done |].
  intros H. destruct (is_space c'); [| done].
  apply orb_false_iff in H as [_ H]. by apply IH.
Qed.

Lemma occurs_rstrip c s : occurs c s = false → occurs c (rstrip s) = false.
Proof.
  induction s as [| c' s IH]; simpl; [done |].
  intros H. apply orb_false_iff in H as [Hc Hs]. specialize (IH Hs).
  destruct (rstrip s) as [| c'' r].
  - destruct (is_space c'); simpl; [done | by rewrite Hc].
  - simpl in *. by rewrite Hc, IH.
Qed.

Lemma occurs_strip c s : occurs c s = false → occurs c (strip s) = false.
Proof. intros H. unfold strip. by apply occurs_rstrip, occurs_lstrip. Qed.

Lemma occurs_drop_last c s : occurs c s = false → occurs c (drop_last s) = false.
Proof.
  induction s as [| c' s IH]; simpl; [done |].
  intros H. apply orb_false_iff in H as [Hc Hs].
  destruct s as [| c'' s']; [done |].
  change (occurs c (String c' (drop_last (String c'' s'))) = false).
  simpl. rewrite Hc. simpl. by apply IH.
Qed.

Lemma occurs_slice c s : occurs c s = false → occurs c (slice_1_m1 s) = false.
Proof.
  destruct s as [| c' s]; simpl; [done |].
  intros H. apply orb_false_iff in H as [_ Hs]. by apply occurs_drop_last.
Qed.

Lemma slice_quoted v : slice_1_m1 (quoted v) = v.
Proof.
  unfold quoted. simpl. induction v as [| c v IH]; [done |].
  change (String c v +:+ String "034" "") with (String c (v +:+ String "034" "")).
  simpl. destruct (v +:+ String "034" "") eqn:E.
  - by destruct v.
  - by rewrite IH.
Qed.

Lemma append_String_assoc k c v t :
  k +:+ String c (v +:+ t) = (k +:+ String c v) +:+ t.
Proof.
  induction k as [| a k IH]; [done |].
  change (String a (k +:+ String c (v +:+ t)) =
          String a ((k +:+ String c v) +:+ t)).
  by rewrite IH.
Qed.

(** ** GFF3 *)

(** One well-formed field [k=v] of the attribute column. *)
Lemma gff3_field_clean k v :
  gff3_ok (k, v) →
  k +:+ String "=" v ≠ "" ∧
  strip (k +:+ String "=" v) = k +:+ String "=" v ∧
  split "=" (k +:+ String "=" v) = [k; v] ∧
  occurs ";" (k +:+ String "=" v) = false.
Proof.
  intros (Hh & Hke & Hks & Hl & Hve & Hvs). simpl in *.
  assert (Hne : String "=" v ≠ "") by discriminate.
  split_and!.
  - by apply append_nonempty_r.
  - apply strip_id.
    + destruct k; [done | exact Hh].
    + rewrite (last_space_app _ _ Hne). destruct v; [done | exact Hl].
  - rewrite (split_app_sep _ _ _ Hke), (split_none _ _ Hve). done.
  - rewrite occurs_app. simpl. by rewrite Hks, Hvs.
Qed.

Lemma gff3_scan_field k v rest :
  gff3_ok (k, v) →
  gff3_scan ((k +:+ String "=" v) :: rest) =
    if (k =? "ID")%string then v else gff3_scan rest.
Proof.
  intros Hok. destruct (gff3_field_clean k v Hok) as (Hne & Hs & Hsp & _).
  cbn [gff3_scan]. apply String.eqb_neq in Hne. rewrite Hne. cbn [negb].
  rewrite Hs, Hsp. done.
Qed.

Lemma gff3_render_cons k v p rest :
  gff3_render ((k, v) :: p :: rest) =
    (k +:+ String "=" v) +:+ String ";" (gff3_render (p :: rest)).
Proof.
  transitivity (k +:+ String "=" (v +:+ String ";" (gff3_render (p :: rest))));
    [by destruct p | apply append_String_assoc].
Qed.

Lemma gff3_render_clean pairs :
  Forall gff3_ok pairs → pairs ≠ [] →
  gff3_render pairs ≠ "" ∧
  head_space (gff3_render pairs) = false ∧
  last_space (gff3_render pairs) = false ∧
  split ";" (gff3_render pairs) = (λ kv, kv.1 +:+ String "=" kv.2) <$> pairs.
Proof.
  induction pairs as [| [k v] pairs IH]; intros Hok Hne; [done |].
  apply Forall_cons in Hok as [Hkv Hok].
  pose proof (gff3_field_clean k v Hkv) as (Hfne & Hstrip & _ & Hsemi).
  assert (Hhead : head_space (k +:+ String "=" v) = false).
  { destruct Hkv as (Hh & _). simpl in Hh. destruct k; [done | exact Hh]. }
  destruct pairs as [| p rest].
  - change (gff3_render [(k, v)]) with (k +:+ String "=" v).
    split_and!; [done | done | | by rewrite (split_none _ _ Hsemi)].
    destruct Hkv as (_ & _ & _ & Hl & _). simpl in Hl.
    rewrite last_space_app by discriminate. destruct v; [done | exact Hl].
  - destruct (IH Hok ltac:(done)) as (Rne & Rh & Rl & Rs).
    rewrite gff3_render_cons. split_and!.
    + apply append_nonempty_r. discriminate.
    + destruct (k +:+ String "=" v) eqn:E; [done | exact Hhead].
    + rewrite last_space_app by discriminate.
      destruct (gff3_render (p :: rest)) eqn:E; [done | exact Rl].
    + rewrite (split_app_sep _ _ _ Hsemi), Rs. done.
Qed.

Lemma gff3_scan_fields pairs :
  Forall gff3_ok pairs →
  gff3_scan ((λ kv, kv.1 +:+ String "=" kv.2) <$> pairs) = assoc_first "ID" pairs.
Proof.
  induction pairs as [| [k v] pairs IH]; intros Hok; [done |].
  apply Forall_cons in Hok as [Hkv Hok].
  rewrite fmap_cons. cbn [fst snd]. rewrite (gff3_scan_field _ _ _ Hkv).
  cbn [assoc_first]. destruct (k =? "ID")%string; [done | by apply IH].
Qed.

(** X12. GFF3 round trip.  On an attribute column written as
    [k1=v1;k2=v2;...], where keys and values contain neither [;] nor
    [=], no key begins and no value ends with white space,
    [_get_gff3_ID] returns the value of the first [ID] key, and [""]
    when there is none. *)
Theorem X12_gff3_ID_round_trip feature_type pairs :
  Forall gff3_ok pairs →
  get_gff3_ID (mk_line feature_type (gff3_render pairs)) = assoc_first "ID" pairs.
Proof.
  intros Hok. unfold get_gff3_ID. cbn [line_attributes].
  destruct pairs as [| p rest]; [done |].
  destruct (gff3_render_clean (p :: rest) Hok ltac:(done)) as (_ & Hh & Hl & Hs).
  rewrite (strip_id _ Hh Hl), Hs. by apply gff3_scan_fields.
Qed.

Lemma X12_gff3_ID_round_trip_witness :
  get_gff3_ID (mk_line "gene"
    (gff3_render [("Name", "abc"); ("ID", "gene:G1"); ("ID", "other")]))
  = "gene:G1".
Proof.
  apply (X12_gff3_ID_round_trip "gene"
           [("Name", "abc"); ("ID", "gene:G1"); ("ID", "other")]).
  repeat constructor.
Defined.

(** ** GTF *)

(** One well-formed field [k w] of the attribute column, with or without
    the space that follows the preceding semicolon. *)
Lemma gtf_field_clean k w :
  gtf_ok (k, w) →
  head_space (k +:+ String " " w) = false ∧
  strip (k +:+ String " " w) = k +:+ String " " w ∧
  split " " (k +:+ String " " w) = [k; w] ∧
  occurs ";" (k +:+ String " " w) = false.
Proof.
  intros (Hkne & Hh & Hksp & Hks & Hwne & Hl & Hwsp & Hws). simpl in *.
  assert (Hhead : head_space (k +:+ String " " w) = false).
  { destruct k; [done | exact Hh]. }
  split_and!; [done | | |].
  - apply strip_id; [done |].
    rewrite last_space_app by discriminate. destruct w; [done | exact Hl].
  - rewrite (split_app_sep _ _ _ Hksp), (split_none _ _ Hwsp). done.
  - rewrite occurs_app. simpl. by rewrite Hks, Hws.
Qed.

Lemma gtf_scan_field id_field k w rest :
  gtf_ok (k, w) →
  gtf_scan id_field ((k +:+ String " " w) :: rest) =
    (if (k =? id_field)%string then slice_1_m1 w else gtf_scan id_field rest) ∧
  gtf_scan id_field (String " " (k +:+ String " " w) :: rest) =
    (if (k =? id_field)%string then slice_1_m1 w else gtf_scan id_field rest).
Proof.
  intros Hok. destruct (gtf_field_clean k w Hok) as (Hh & Hs & Hsp & _).
  assert (Hne : (k +:+ String " " w =? "")%string = false).
  { apply String.eqb_neq. apply append_nonempty_r. discriminate. }
  split.
  - cbn [gtf_scan]. rewrite Hne. cbn [negb]. rewrite Hs, Hsp. done.
  - cbn [gtf_scan].
    assert (Hs' : strip (String " " (k +:+ String " " w)) = k +:+ String " " w).
    { unfold strip. change (lstrip (String " " (k +:+ String " " w)))
        with (lstrip (k +:+ String " " w)). exact Hs. }
    rewrite Hs', Hsp. done.
Qed.

Lemma gtf_render_tail_cons k w rest :
  gtf_render_tail ((k, w) :: rest) =
    String " " (k +:+ String " " w) +:+ String ";" (gtf_render_tail rest).
Proof.
  transitivity (String " " (k +:+ String " " (w +:+ String ";" (gtf_render_tail rest))));
    [done |].
  change (String " " (k +:+ String " " w) +:+ String ";" (gtf_render_tail rest))
    with (String " " ((k +:+ String " " w) +:+ String ";" (gtf_render_tail rest))).
  f_equal. apply append_String_assoc.
Qed.

Lemma gtf_render_cons k w rest :
  gtf_render ((k, w) :: rest) =
    (k +:+ String " " w) +:+ String ";" (gtf_render_tail rest).
Proof.
  transitivity (k +:+ String " " (w +:+ String ";" (gtf_render_tail rest)));
    [done | apply append_String_assoc].
Qed.

Lemma gtf_render_tail_clean rest :
  Forall gtf_ok rest →
  last_space (String ";" (gtf_render_tail rest)) = false ∧
  ∀ id_field,
    gtf_scan id_field (split ";" (gtf_render_tail rest)) =
      slice_1_m1 (assoc_first id_field rest).
Proof.
  induction rest as [| [k w] rest IH]; intros Hok; [done |].
  apply Forall_cons in Hok as [Hkw Hok]. destruct (IH Hok) as [Rl Rs].
  pose proof (gtf_field_clean k w Hkw) as (_ & _ & _ & Hsemi).
  rewrite gtf_render_tail_cons. split.
  - change (last_space (String " " (k +:+ String " " w)
                        +:+ String ";" (gtf_render_tail rest)) = false).
    rewrite last_space_app by discriminate. exact Rl.
  - intros id_field.
    rewrite split_app_sep by (simpl; exact Hsemi).
    rewrite (proj2 (gtf_scan_field id_field k w _ Hkw)). cbn [assoc_first].
    destruct (k =? id_field)%string; [done | apply Rs].
Qed.

Lemma gtf_scan_render id_field pairs :
  Forall gtf_ok pairs →
  gtf_scan id_field (split ";" (strip (gtf_render pairs))) =
    slice_1_m1 (assoc_first id_field pairs).
Proof.
  intros Hok. destruct pairs as [| [k w] rest]; [done |].
  apply Forall_cons in Hok as [Hkw Hok].
  destruct (gtf_render_tail_clean rest Hok) as [Rl Rs].
  pose proof (gtf_field_clean k w Hkw) as (Hh & _ & _ & Hsemi).
  rewrite gtf_render_cons.
  rewrite strip_id.
  - rewrite (split_app_sep _ _ _ Hsemi).
    rewrite (proj1 (gtf_scan_field id_field k w _ Hkw)). cbn [assoc_first].
    destruct (k =? id_field)%string; [done | apply Rs].
  - destruct (k +:+ String " " w) eqn:E; [| exact Hh].
    exfalso. revert E. apply append_nonempty_r. discriminate.
  - rewrite last_space_app by discriminate. exact Rl.
Qed.

Lemma get_gtf_ID_render feature_type pairs :
  Forall gtf_ok pairs →
  get_gtf_ID (mk_line feature_type (gtf_render pairs)) =
    match gtf_id_field feature_type with
    | Some id_field => slice_1_m1 (assoc_first id_field pairs)
    | None => ""
    end.
Proof.
  intros Hok. unfold get_gtf_ID. cbn [line_feature line_attributes].
  destruct (gtf_id_field feature_type); [by apply gtf_scan_render | done].
Qed.

(** X13. GTF lookup.  On an attribute column written as
    [k1 w1; k2 w2;], where keys and written values are not empty and
    contain neither a space nor [;], no key begins and no value ends
    with white space, [_get_gtf_ID] looks up [exon_id], [cdsid],
    [transcript_id] or [gene_id] according to the feature type ([exon],
    [CDS], [transcript], [gene]) and returns the written value of its
    first occurrence without its first and last characters, whether or
    not these are quotes; it returns [""] when the key is absent and for
    every other feature type. *)
Theorem X13_gtf_ID_lookup feature_type pairs :
  Forall gtf_ok pairs →
  get_gtf_ID (mk_line feature_type (gtf_render pairs)) =
    match gtf_id_field feature_type with
    | Some id_field => slice_1_m1 (assoc_first id_field pairs)
    | None => ""
    end.
Proof. exact (get_gtf_ID_render feature_type pairs). Qed.

(** An identifier written without quotes loses its first and last
    characters. *)
Lemma X13_gtf_ID_lookup_witness :
  get_gtf_ID (mk_line "gene" (gtf_render [("gene_id", "ENSG7")])) = "NSG".
Proof.
  apply (X13_gtf_ID_lookup "gene" [("gene_id", "ENSG7")]).
  repeat constructor; discriminate.
Defined.

Lemma gtf_ok_quoted k v :
  k ≠ "" → head_space k = false → occurs " " k = false → occurs ";" k = false →
  occurs " " v = false → occurs ";" v = false →
  gtf_ok (k, quoted v).
Proof.
  intros Hkne Hh Hksp Hks Hvsp Hvs. unfold gtf_ok, quoted. cbn [fst snd].
  split_and!; try done.
  - assert (Hne : v +:+ String "034" "" ≠ "")
      by (apply append_nonempty_r; discriminate).
    change (last_space (String "034" "" +:+ (v +:+ String "034" "")) = false).
    rewrite last_space_app by done. by rewrite last_space_app by discriminate.
  - simpl. rewrite occurs_app, Hvsp. done.
  - simpl. rewrite occurs_app, Hvs. done.
Qed.

Lemma assoc_first_quoted key kvs :
  slice_1_m1 (assoc_first key (prod_map id quoted <$> kvs)) = assoc_first key kvs.
Proof.
  induction kvs as [| [k v] kvs IH]; [done |].
  rewrite fmap_cons. cbn [prod_map fst snd id assoc_first].
  destruct (k =? key)%string; [apply slice_quoted | exact IH].
Qed.

(** X14. GTF round trip.  When the values are written between double
    quotes, as GTF does, and contain neither a space nor [;],
    [_get_gtf_ID] returns the value of the first occurrence of the key
    of the feature type, without the quotes. *)
Theorem X14_gtf_ID_round_trip feature_type kvs :
  Forall (λ kv, kv.1 ≠ "" ∧ head_space kv.1 = false ∧
                occurs " " kv.1 = false ∧ occurs ";" kv.1 = false ∧
                occurs " " kv.2 = false ∧ occurs ";" kv.2 = false) kvs →
  get_gtf_ID (mk_line feature_type (gtf_render (prod_map id quoted <$> kvs))) =
    match gtf_id_field feature_type with
    | Some id_field => assoc_first id_field kvs
    | None => ""
    end.
Proof.
  intros Hok. rewrite get_gtf_ID_render.
  - destruct (gtf_id_field feature_type); [apply assoc_first_quoted | done].
  - apply Forall_fmap. eapply Forall_impl; [exact Hok |].
    intros [k v] (? & ? & ? & ? & ? & ?). by apply gtf_ok_quoted.
Qed.

Lemma X14_gtf_ID_round_trip_witness :
  get_gtf_ID (mk_line "transcript"
    (gtf_render (prod_map id quoted <$>
       [("gene_id", "G1"); ("transcript_id", "T7"); ("exon_number", "2")])))
  = "T7".
Proof.
  apply (X14_gtf_ID_round_trip "transcript"
           [("gene_id", "G1"); ("transcript_id", "T7"); ("exon_number", "2")]).
  repeat constructor; discriminate.
Defined.

(** ** What the extractors never return *)

Lemma gff3_scan_clean fields :
  Forall (λ f, occurs ";" f = false) fields →
  occurs ";" (gff3_scan fields) = false ∧ occurs "=" (gff3_scan fields) = false.
Proof.
  induction fields as [| a rest IH]; intros Hf; [done |].
  apply Forall_cons in Hf as [Ha Hrest]. specialize (IH Hrest).
  cbn [gff3_scan]. destruct (negb (a =? "")%string); [| exact IH].
  pose proof (split_fields ";" "=" (strip a) (or_intror (occurs_strip _ _ Ha)))
    as Hs.
  pose proof (split_fields "=" "=" (strip a) (or_introl eq_refl)) as He.
  destruct (split "=" (strip a)) as [| k [| v [| x t]]]; try exact IH.
  destruct (k =? "ID")%string; [| exact IH].
  apply Forall_cons in Hs as [_ Hs]. apply Forall_cons in Hs as [Hs _].
  apply Forall_cons in He as [_ He]. apply Forall_cons in He as [He _].
  done.
Qed.

Lemma gtf_scan_clean id_field fields :
  Forall (λ f, occurs ";" f = false) fields →
  occurs ";" (gtf_scan id_field fields) = false ∧
  occurs " " (gtf_scan id_field fields) = false.
Proof.
  induction fields as [| a rest IH]; intros Hf; [done |].
  apply Forall_cons in Hf as [Ha Hrest]. specialize (IH Hrest).
  cbn [gtf_scan]. destruct (negb (a =? "")%string); [| exact IH].
  pose proof (split_fields ";" " " (strip a) (or_intror (occurs_strip _ _ Ha)))
    as Hs.
  pose proof (split_fields " " " " (strip a) (or_introl eq_refl)) as He.
  destruct (split " " (strip a)) as [| k [| w [| x t]]]; try exact IH.
  destruct (k =? id_field)%string; [| exact IH].
  apply Forall_cons in Hs as [_ Hs]. apply Forall_cons in Hs as [Hs _].
  apply Forall_cons in He as [_ He]. apply Forall_cons in He as [He _].
  split; by apply occurs_slice.
Qed.

(** X15. Whatever the line, the identifier returned by [_get_gff3_ID]
    contains neither [;] nor [=], and the one returned by [_get_gtf_ID]
    contains neither [;] nor a space. *)
Theorem X15_ID_free_of_separators l :
  (occurs ";" (get_gff3_ID l) = false ∧ occurs "=" (get_gff3_ID l) = false) ∧
  (occurs ";" (get_gtf_ID l) = false ∧ occurs " " (get_gtf_ID l) = false).
Proof.
  split.
  - apply gff3_scan_clean. apply split_fields. by left.
  - unfold get_gtf_ID. destruct (gtf_id_field (line_feature l)); [| done].
    apply gtf_scan_clean. apply split_fields. by left.
Qed.

(** * Counters against returned values *)

Lemma Level_call_class_total self ID0 start0 end0 strand s' r :
  Level_call self ID0 start0 end0 strand = Ok (s', r) →
  ∃ d, 0 ≤ d ≤ 1 ∧ (is_Some r → d = 1) ∧
    counter_get (count s') "positive_features"
    + counter_get (count s') "negative_features"
    + counter_get (count s') "unstranded_features" =
    counter_get (count self) "positive_features"
    + counter_get (count self) "negative_features"
    + counter_get (count self) "unstranded_features" + d.
Proof.
  intros E. pose proof (Level_call_counts _ _ _ _ _ _ _ E) as (_ & P & N & U).
  pose proof (enters_exclusive self strand) as (Xp & Xn & Xu).
  exists (indicator (enters_pos self strand) + indicator (enters_neg self strand)
          + indicator (enters_unstrand self strand)).
  split; [| split].
  - indicators; lia.
  - intros Hs. destruct Hs as [ef Hef]. subst r.
    apply Level_call_Some in E as (_ & _ & _ & Hb).
    destruct Hb as [[H _] | [[H _] | [H _]]]; indicators; lia.
  - lia.
Qed.

Lemma call_seq_class_total fs : ∀ self s' rs,
  call_seq self fs = Ok (s', rs) →
  ∃ d, Z.of_nat (length (filter is_Some rs)) ≤ d ≤ Z.of_nat (length fs) ∧
    counter_get (count s') "positive_features"
    + counter_get (count s') "negative_features"
    + counter_get (count s') "unstranded_features" =
    counter_get (count self) "positive_features"
    + counter_get (count self) "negative_features"
    + counter_get (count self) "unstranded_features" + d.
Proof.
  induction fs as [| f fs IH]; intros self s' rs E.
  - injection E as <- <-. exists 0. simpl. lia.
  - apply call_seq_cons in E as (s1 & r & rs' & E1 & E2 & ->).
    apply Level_call_class_total in E1 as (d1 & Hd1 & Hr & E1).
    apply IH in E2 as (d2 & Hd2 & E2).
    exists (d1 + d2). split; [| lia].
    rewrite filter_cons. simpl length.
    destruct (decide (is_Some r)) as [Hs | Hs]; simpl length.
    + specialize (Hr Hs). lia.
    + lia.
Qed.

(** X16. Counters against calls.  On an engine built by [__init__],
    after any sequence of calls, the three class counters add up to at
    least the number of features returned and at most the "all features"
    counter, which is the number of calls. *)
Theorem X16_counters_ordered max_depth0 offset0 fp fn fu fs :
  ∃ s' rs, call_seq (Level_init max_depth0 offset0 fp fn fu) fs = Ok (s', rs) ∧
    Z.of_nat (length (filter is_Some rs)) ≤
      counter_get (count s') "positive_features"
      + counter_get (count s') "negative_features"
      + counter_get (count s') "unstranded_features" ∧
    counter_get (count s') "positive_features"
    + counter_get (count s') "negative_features"
    + counter_get (count s') "unstranded_features" ≤
      counter_get (count s') "all_features" ∧
    counter_get (count s') "all_features" = Z.of_nat (length fs).
Proof.
  destruct (call_seq_returns fs (Level_init max_depth0 offset0 fp fn fu))
    as (s' & rs & E).
  exists s', rs. split; [done |].
  destruct (call_seq_class_total _ _ _ _ E) as (d & Hd & Hsum).
  apply call_seq_counts in E as (A & _).
  change (counter_get (count (Level_init max_depth0 offset0 fp fn fu)) "all_features")
    with 0 in A.
  change (counter_get (count (Level_init max_depth0 offset0 fp fn fu))
            "positive_features") with 0 in Hsum.
  change (counter_get (count (Level_init max_depth0 offset0 fp fn fu))
            "negative_features") with 0 in Hsum.
  change (counter_get (count (Level_init max_depth0 offset0 fp fn fu))
            "unstranded_features") with 0 in Hsum.
  lia.
Qed.
